(** * RailViz / OSRD railjson generator: speed sections, geometry helper,
      logical-signal schemas and the topology builder.

    Shallow embedding of
      - [railjson_generator/schema/infra/speed_section.py]
      - [railjson_generator/schema/infra/make_geo_data.py]
      - [osrd_schemas/infra_editor.py]
      - [tests/infra-scripts/one_line.py], [tests/infra-scripts/circle_infra.py]
    Python integers are [Z] or [nat] (counters that only grow from 0), Python
    floats are IEEE binary64 values ([PrimFloat.float]), [str] is [string],
    [list] is [list], and a [dict] with string keys is a [gmap string _] or, where
    the order of the keys matters, an association list. *)

From Stdlib Require Import ZArith Lia PrimFloat Sorted Permutation.
From stdpp Require Import base option list strings pretty gmap.

Set Warnings "-register-all,-inexact-float".

Open Scope string_scope.
Open Scope list_scope.

(** ** Exceptions *)

(** Python exceptions become the left side of a result.  [ValidationError] is
    pydantic's; the other five are the error kinds of the builder. *)
Inductive Error :=
| ValidationError (msg : string)
| DuplicateIdentifier (id : string)
| OutOfBoundsOffset
| EndpointAlreadyConsumed
| ArityMismatch
| UnknownVariant (kind : string)
| NotBuilding.

Inductive result (A : Type) :=
| Ok (a : A)
| Err (e : Error).
Arguments Ok {A} a.
Arguments Err {A} e.

(** Exceptions propagate: stdpp's [x ← r; k] on results. *)
#[global] Instance result_ret : MRet result := fun A a => Ok a.
#[global] Instance result_bind : MBind result := fun A B k r =>
  match r with
  | Ok a => k a
  | Err e => Err e
  end.

Definition is_ok {A} (r : result A) : bool :=
  match r with Ok _ => true | Err _ => false end.

(** ** make_geo_data.py *)

Module make_geo_data.

(** geojson_pydantic's [Position]: a 2D or a 3D named tuple of floats. *)
Inductive Position :=
| Position2D (longitude latitude : float)
| Position3D (longitude latitude altitude : float).

(** [LineStringCoords = Annotated[List[Position], Field(min_length=2)]] *)
Definition LineStringCoords := list Position.

Definition LineStringCoords_valid (points : LineStringCoords) : bool :=
  (2 <=? length points)%nat.

Record LineString := mkLineString {
  coordinates : LineStringCoords;
  type : string
}.

(** The pydantic constructor [LineString(coordinates=..., type=...)]: the
    fields are validated, then stored as given. *)
Definition LineString_init (coordinates : LineStringCoords) (type : string)
  : result LineString :=
  if negb (LineStringCoords_valid coordinates) then
    Err (ValidationError "coordinates: List should have at least 2 items")
  else if negb (String.eqb type "LineString") then
    Err (ValidationError "type: Input should be 'LineString'")
  else Ok (mkLineString coordinates type).

Definition make_geo_line (points : LineStringCoords) : result LineString :=
  LineString_init points "LineString".

Definition make_geo_lines (points : LineStringCoords)
  : result (gmap string LineString) :=
  line ← make_geo_line points;
  Ok {[ "geo" := line ]}.

End make_geo_data.

(** ** range_elements and the track handles *)

(** A Python reference to a [TrackSection] object.  Track sections are
    created by a builder and live in its track list; the reference is the
    position of the track in that list. *)
Abbreviation TrackRef := nat (only parsing).

Inductive ApplicableDirection :=
| START_TO_STOP
| STOP_TO_START
| BOTH.

Module range_elements.

(** [ApplicableDirectionsTrackRange] is imported by speed_section.py from
    [railjson_generator.schema.infra.range_elements]; it is built there with the
    four keyword arguments below, which the dataclass stores. *)
Record ApplicableDirectionsTrackRange := mkRange {
  track : TrackRef;
  begin : Z;
  end_ : Z;
  applicable_directions : ApplicableDirection
}.

End range_elements.

(** ** speed_section.py *)

Module speed_section.
Import range_elements.

(** Address of a list or of a dict object. *)
Abbreviation loc := nat (only parsing).

(** The part of the Python process that speed_section.py reads and writes:
    the class attribute [SpeedSection._index], and the list and dict objects
    that speed sections refer to.  An address is an index in [lists]
    (respectively [dicts]); allocation appends. *)
Record State := mkState {
  _index : nat;
  lists : list (list ApplicableDirectionsTrackRange);
  dicts : list (gmap string float)
}.

(** The state when the module has just been imported: [_index = 0]. *)
Definition initial_state : State := mkState 0 [] [].

Definition set_index (n : nat) (st : State) : State :=
  mkState n (lists st) (dicts st).

Definition set_lists (ls : list (list ApplicableDirectionsTrackRange))
  (st : State) : State :=
  mkState (_index st) ls (dicts st).

(** [list()] and [dict()]: a new, empty object at a new address. *)
Definition new_list (st : State) : loc * State :=
  (length (lists st), set_lists (lists st ++ [[]]) st).

Definition new_dict (st : State) : loc * State :=
  (length (dicts st), mkState (_index st) (lists st) (dicts st ++ [∅])).

(** [def _speed_section_id()] *)
Definition _speed_section_id (st : State) : string * State :=
  let res := "speed_section." +:+ pretty (_index st) in
  (res, set_index (_index st + 1) st).

(** [@dataclass class SpeedSection]: the container fields hold addresses. *)
Record SpeedSection := mkSpeedSection {
  speed_limit : float;
  speed_limit_by_tag : loc;
  track_ranges : loc;
  label : string;
  on_routes : option (list string)
}.

(** The [__init__] the dataclass generates: a field whose argument is omitted
    ([None] here) gets the result of its default factory, the factories being
    called in the order of the fields. *)
Definition SpeedSection_init (speed_limit : float)
  (speed_limit_by_tag track_ranges : option loc) (label : option string)
  (on_routes : option (list string)) (st : State) : SpeedSection * State :=
  let '(by_tag, st) :=
    match speed_limit_by_tag with
    | Some d => (d, st)
    | None => new_dict st
    end in
  let '(ranges, st) :=
    match track_ranges with
    | Some l => (l, st)
    | None => new_list st
    end in
  let '(lbl, st) :=
    match label with
    | Some s => (s, st)
    | None => _speed_section_id st
    end in
  (mkSpeedSection speed_limit by_tag ranges lbl on_routes, st).

(** [SpeedSection.reset_index()] *)
Definition reset_index (st : State) : State := set_index 0 st.

(** [self.track_ranges.append(x)] / [self.track_ranges += xs]: the list
    object at the address is extended in place. *)
Definition list_extend (l : loc) (xs : list ApplicableDirectionsTrackRange)
  (st : State) : State :=
  set_lists (alter (fun old => old ++ xs) l (lists st)) st.

(** [SpeedSection.add_track_range]: no statement of it raises. *)
Definition add_track_range (self : SpeedSection) (track : TrackRef)
  (begin end_ : Z) (applicable_directions : ApplicableDirection) (st : State)
  : result State :=
  Ok (list_extend (track_ranges self)
        [mkRange track begin end_ applicable_directions] st).

(** [SpeedSection.add_applicable_track_ranges] *)
Definition add_applicable_track_ranges (self : SpeedSection)
  (track_ranges : list ApplicableDirectionsTrackRange) (st : State)
  : result State :=
  Ok (list_extend (speed_section.track_ranges self) track_ranges st).

(** Reading the two containers of a speed section. *)
Definition get_track_ranges (self : SpeedSection) (st : State)
  : list ApplicableDirectionsTrackRange :=
  default [] (lists st !! track_ranges self).

Definition get_speed_limit_by_tag (self : SpeedSection) (st : State)
  : gmap string float :=
  default ∅ (dicts st !! speed_limit_by_tag self).

(** A construction script, as far as labels go: each step creates one speed
    section, with an explicit label or without. *)
Fixpoint create_all (script : list (float * option string)) (st : State)
  : list SpeedSection * State :=
  match script with
  | [] => ([], st)
  | (limit, lbl) :: script' =>
      let '(s, st) := SpeedSection_init limit None None lbl None st in
      let '(ss, st) := create_all script' st in
      (s :: ss, st)
  end.

(** The labels, among those of the speed sections that a script created,
    that were generated: those of the steps without an explicit label. *)
Fixpoint auto_labels (script : list (float * option string))
  (created : list SpeedSection) : list string :=
  match script, created with
  | (_, None) :: script', s :: created' => label s :: auto_labels script' created'
  | (_, Some _) :: script', _ :: created' => auto_labels script' created'
  | _, _ => []
  end.

(** The calls by which a program acts on the state through this module: the
    constructor, with any choice of arguments given or omitted, the two
    methods that append, on any speed section, and [reset_index]. *)
Inductive operation :=
| Construct (speed_limit : float) (speed_limit_by_tag track_ranges : option loc)
    (label : option string) (on_routes : option (list string))
| AddTrackRange (self : SpeedSection) (track : TrackRef) (begin end_ : Z)
    (applicable_directions : ApplicableDirection)
| AddApplicableTrackRanges (self : SpeedSection)
    (track_ranges : list ApplicableDirectionsTrackRange)
| ResetIndex.

Definition state_of (r : result State) (st : State) : State :=
  match r with
  | Ok st' => st'
  | Err _ => st
  end.

Definition perform (st : State) (o : operation) : State :=
  match o with
  | Construct speed_limit speed_limit_by_tag track_ranges label on_routes =>
      (SpeedSection_init speed_limit speed_limit_by_tag track_ranges label
         on_routes st).2
  | AddTrackRange self track begin end_ applicable_directions =>
      state_of (add_track_range self track begin end_ applicable_directions st)
        st
  | AddApplicableTrackRanges self track_ranges =>
      state_of (add_applicable_track_ranges self track_ranges st) st
  | ResetIndex => reset_index st
  end.

(** A run of calls, in order. *)
Definition perform_all (ops : list operation) (st : State) : State :=
  foldl perform st ops.

(** The ranges that a call hands to the list object at address [l]. *)
Definition appended_by (l : loc) (o : operation)
  : list ApplicableDirectionsTrackRange :=
  match o with
  | AddTrackRange self track begin end_ applicable_directions =>
      if decide (track_ranges self = l)
      then [mkRange track begin end_ applicable_directions] else []
  | AddApplicableTrackRanges self ranges =>
      if decide (track_ranges self = l) then ranges else []
  | _ => []
  end.

(** The ranges that a run of calls hands to the list object at address [l],
    in order. *)
Definition appended (l : loc) (ops : list operation)
  : list ApplicableDirectionsTrackRange :=
  concat (appended_by l <$> ops).

End speed_section.

(** ** infra_editor.py *)

Module infra_editor.

(** [class SignalingSystem(str, Enum)] *)
Inductive SignalingSystem :=
| bal
| bapr
| tvm300
| tvm430
| etcsLevel2.

Definition SignalingSystem_value (k : SignalingSystem) : string :=
  match k with
  | bal => "BAL"
  | bapr => "BAPR"
  | tvm300 => "TVM300"
  | tvm430 => "TVM430"
  | etcsLevel2 => "ETCS_LEVEL2"
  end.

Definition SignalingSystem_members : list SignalingSystem :=
  [bal; bapr; tvm300; tvm430; etcsLevel2].

(** [SignalingSystem(s)]: the member whose value is [s], if any. *)
Definition SignalingSystem_of_value (s : string) : option SignalingSystem :=
  find (fun k => String.eqb (SignalingSystem_value k) s) SignalingSystem_members.

(** [class FlagSignalParameter(str, Enum)] *)
Inductive FlagSignalParameter :=
| true_
| false_.

Definition FlagSignalParameter_value (f : FlagSignalParameter) : string :=
  match f with
  | true_ => "true"
  | false_ => "false"
  end.

(** The Python values that reach a pydantic validator (parsed JSON): a dict
    keeps its keys in insertion order. *)
Inductive value :=
| VNone
| VBool (b : bool)
| VInt (z : Z)
| VStr (s : string)
| VList (l : list value)
| VDict (d : list (string * value)).

(** [d.get(key)] *)
Fixpoint dict_get (key : string) (d : list (string * value)) : option value :=
  match d with
  | [] => None
  | (k, v) :: d' => if String.eqb k key then Some v else dict_get key d'
  end.

(** What [Field(...)] says of a field that the input leaves out. *)
Inductive FieldDefault :=
| Required
| Default (v : value)
| DefaultFactoryList.

Definition default_value (dflt : FieldDefault) : option value :=
  match dflt with
  | Required => None
  | Default v => Some v
  | DefaultFactoryList => Some (VList [])
  end.

(** The annotations used in infra_editor.py.  A model is the list of its
    fields in declaration order (inherited fields first), each with its
    annotation and its default. *)
Inductive schema :=
| TStrEnum (values : list string)
| TLiteral (s : string)
| TIdentifier
| TList (elem : schema)
| TModel (fields : list (string * (schema * FieldDefault)))
| TUnion (discriminator : string) (variants : list schema).

Definition FieldInfo : Type := schema * FieldDefault.

Fixpoint get_field (name : string) (fields : list (string * FieldInfo))
  : option FieldInfo :=
  match fields with
  | [] => None
  | (n, info) :: fields' =>
      if String.eqb n name then Some info else get_field name fields'
  end.

Definition model_fields (t : schema) : list (string * FieldInfo) :=
  match t with
  | TModel fields => fields
  | _ => []
  end.

Definition field_names (t : schema) : list string := (model_fields t).*1.

(** The tag under which a discriminated union finds a member: the value of
    the member's [Literal] field named by the discriminator. *)
Definition discriminator_tag (discriminator : string) (t : schema)
  : option string :=
  match get_field discriminator (model_fields t) with
  | Some (TLiteral s, _) => Some s
  | _ => None
  end.

Definition has_tag (discriminator tag : string) (t : schema) : bool :=
  match discriminator_tag discriminator t with
  | Some s => String.eqb s tag
  | None => false
  end.

Section validation.

(** [Identifier] is imported from [osrd_schemas.infra]: a constrained [str].
    Its constraint is a parameter here. *)
Variable Identifier_valid : string → bool.

(** Validation of the elements of a list, in order; the first failure is the
    failure of the list. *)
Definition validate_items (validate_elem : value → result value)
  : list value → result (list value) :=
  fix go l :=
    match l with
    | [] => Ok []
    | x :: l' =>
        y ← validate_elem x;
        ys ← go l';
        Ok (y :: ys)
    end.

(** Validation of the fields of a model against the input dict [d]: a field
    present in the input is validated against its annotation, an absent one
    takes its default or, if required, fails.  Keys of the input that are not
    fields are ignored.  The result has exactly the fields, in order. *)
Definition validate_fields (validate : schema → value → result value)
  (d : list (string * value))
  : list (string * FieldInfo) → result (list (string * value)) :=
  fix go fields :=
    match fields with
    | [] => Ok []
    | (name, (ty, dflt)) :: fields' =>
        x ← match dict_get name d with
            | Some v => validate ty v
            | None =>
                match default_value dflt with
                | Some dv => Ok dv
                | None => Err (ValidationError ("Field required: " +:+ name))
                end
            end;
        rest ← go fields';
        Ok ((name, x) :: rest)
    end.

(** The member of a discriminated union that carries the tag, then its
    validation. *)
Definition validate_tagged (validate : schema → value → result value)
  (discriminator tag : string) (v : value) : list schema → result value :=
  fix go variants :=
    match variants with
    | [] => Err (ValidationError ("union_tag_invalid: " +:+ tag))
    | t :: variants' =>
        if has_tag discriminator tag t then validate t v else go variants'
    end.

(** pydantic's validation of a Python value against an annotation. *)
Fixpoint validate (t : schema) (v : value) {struct t} : result value :=
  match t with
  | TStrEnum values =>
      match v with
      | VStr s =>
          if existsb (String.eqb s) values then Ok v
          else Err (ValidationError "enum")
      | _ => Err (ValidationError "enum")
      end
  | TLiteral lit =>
      match v with
      | VStr s =>
          if String.eqb s lit then Ok v
          else Err (ValidationError "literal_error")
      | _ => Err (ValidationError "literal_error")
      end
  | TIdentifier =>
      match v with
      | VStr s =>
          if Identifier_valid s then Ok v
          else Err (ValidationError "identifier")
      | _ => Err (ValidationError "string_type")
      end
  | TList elem =>
      match v with
      | VList l => l' ← validate_items (validate elem) l; Ok (VList l')
      | _ => Err (ValidationError "list_type")
      end
  | TModel fields =>
      match v with
      | VDict d => d' ← validate_fields validate d fields; Ok (VDict d')
      | _ => Err (ValidationError "model_type")
      end
  | TUnion discriminator variants =>
      match v with
      | VDict d =>
          match dict_get discriminator d with
          | Some (VStr tag) =>
              validate_tagged validate discriminator tag v variants
          | Some _ => Err (ValidationError "union_tag_invalid")
          | None => Err (ValidationError "union_tag_not_found")
          end
      | _ => Err (ValidationError "model_attributes_type")
      end
  end.

(** The schemas on which validation returns values that it accepts
    unchanged: the fields of a model have distinct names, and a default is a
    value that the annotation of its field accepts as it is. *)
Fixpoint well_formed (t : schema) : Prop :=
  match t with
  | TList elem => well_formed elem
  | TModel fields =>
      NoDup fields.*1
      ∧ (fix go (fs : list (string * (schema * FieldDefault))) : Prop :=
           match fs with
           | [] => True
           | (_, (ty, dflt)) :: fs' =>
               (well_formed ty
                ∧ ∀ dv, default_value dflt = Some dv → validate ty dv = Ok dv)
               ∧ go fs'
           end) fields
  | TUnion _ variants =>
      (fix go (vs : list schema) : Prop :=
         match vs with
         | [] => True
         | t' :: vs' => well_formed t' ∧ go vs'
         end) variants
  | _ => True
  end.

End validation.

(** The annotation [SignalingSystem], resp. [FlagSignalParameter]: a string
    that is the value of a member. *)
Definition SignalingSystem_schema : schema :=
  TStrEnum (SignalingSystem_value <$> SignalingSystem_members).

Definition FlagSignalParameter_schema : schema :=
  TStrEnum (FlagSignalParameter_value <$> [true_; false_]).

(** [class BaseLogicalSignal(BaseModel)] *)
Definition BaseLogicalSignal_fields : list (string * FieldInfo) :=
  [("next_signaling_systems", (TList SignalingSystem_schema, DefaultFactoryList))].

Module BalSystem.
Definition Settings : schema :=
  TModel [("Nf", (FlagSignalParameter_schema, Required))].
Definition Parameters : schema :=
  TModel [("jaune_cli", (FlagSignalParameter_schema, Required))].
Definition ConditionalParameters : schema :=
  TModel [("on_route", (TIdentifier, Required));
          ("parameters", (Parameters, Required))].
Definition model : schema :=
  TModel (BaseLogicalSignal_fields ++
    [("signaling_system", (TLiteral "BAL", Default (VStr "BAL")));
     ("settings", (Settings, Required));
     ("default_parameters", (Parameters, Required));
     ("conditional_parameters", (TList ConditionalParameters, DefaultFactoryList))]).
End BalSystem.

Module BaprSystem.
Definition Settings : schema :=
  TModel [("Nf", (FlagSignalParameter_schema, Required));
          ("distant", (FlagSignalParameter_schema, Required))].
Definition Parameters : schema := TModel [].
Definition ConditionalParameters : schema :=
  TModel [("on_route", (TIdentifier, Required));
          ("parameters", (Parameters, Required))].
Definition model : schema :=
  TModel (BaseLogicalSignal_fields ++
    [("signaling_system", (TLiteral "BAPR", Default (VStr "BAPR")));
     ("settings", (Settings, Required));
     ("parameters", (Parameters, Required));
     ("conditional_parameters", (TList ConditionalParameters, DefaultFactoryList))]).
End BaprSystem.

Module Tvm300System.
Definition Settings : schema :=
  TModel [("Nf", (FlagSignalParameter_schema, Required))].
Definition Parameters : schema := TModel [].
Definition ConditionalParameters : schema :=
  TModel [("on_route", (TIdentifier, Required));
          ("parameters", (Parameters, Required))].
Definition model : schema :=
  TModel (BaseLogicalSignal_fields ++
    [("signaling_system", (TLiteral "TVM300", Default (VStr "TVM300")));
     ("settings", (Settings, Required));
     ("default_parameters", (Parameters, Required));
     ("conditional_parameters", (TList ConditionalParameters, DefaultFactoryList))]).
End Tvm300System.

Module Tvm430System.
Definition Settings : schema :=
  TModel [("Nf", (FlagSignalParameter_schema, Required))].
Definition Parameters : schema := TModel [].
Definition ConditionalParameters : schema :=
  TModel [("on_route", (TIdentifier, Required));
          ("parameters", (Parameters, Required))].
Definition model : schema :=
  TModel (BaseLogicalSignal_fields ++
    [("signaling_system", (TLiteral "TVM430", Default (VStr "TVM430")));
     ("settings", (Settings, Required));
     ("default_parameters", (Parameters, Required));
     ("conditional_parameters", (TList ConditionalParameters, DefaultFactoryList))]).
End Tvm430System.

Module EtcsLevel2System.
Definition Settings : schema :=
  TModel [("Nf", (FlagSignalParameter_schema, Required))].
Definition Parameters : schema := TModel [].
Definition ConditionalParameters : schema :=
  TModel [("on_route", (TIdentifier, Required));
          ("parameters", (Parameters, Required))].
Definition model : schema :=
  TModel (BaseLogicalSignal_fields ++
    [("signaling_system", (TLiteral "ETCS_LEVEL2", Default (VStr "ETCS_LEVEL2")));
     ("settings", (Settings, Required));
     ("default_parameters", (Parameters, Required));
     ("conditional_parameters", (TList ConditionalParameters, DefaultFactoryList))]).
End EtcsLevel2System.

(** The model class of a signaling-system kind. *)
Definition system_model (k : SignalingSystem) : schema :=
  match k with
  | bal => BalSystem.model
  | bapr => BaprSystem.model
  | tvm300 => Tvm300System.model
  | tvm430 => Tvm430System.model
  | etcsLevel2 => EtcsLevel2System.model
  end.

(** [class LimitedLogicalSignal(RootModel)]: the root is the union of the
    five models, discriminated by "signaling_system". *)
Definition LimitedLogicalSignal : schema :=
  TUnion "signaling_system"
    [BalSystem.model; BaprSystem.model; Tvm300System.model;
     Tvm430System.model; EtcsLevel2System.model].

(** [class _TmpSignal(BaseModel)] *)
Definition _TmpSignal : schema :=
  TModel [("logical_signals", (TList LimitedLogicalSignal, DefaultFactoryList))].

End infra_editor.

(** ** The topology builder *)

Module infra_builder.

(** Modelled from the spec: the [InfraBuilder] class and the track, link,
    switch, detector, signal and buffer-stop classes of railjson_generator are
    not among the sources (only the scripts that call them are).  The data
    below follows the DATA MODEL section: a track section has a unique
    identifier, a length, two endpoints and ordered collections of attached
    objects; an endpoint is a (track, extremity) pair; a link joins two
    endpoints; a switch binds the named ports of its type to endpoints. *)
Inductive Extremity :=
| BEGIN
| END.

Record TrackEndpoint := mkEndpoint {
  endpoint_track : TrackRef;
  endpoint_extremity : Extremity
}.

#[global] Instance Extremity_eq_dec : EqDecision Extremity.
Proof. solve_decision. Defined.

Definition Extremity_eqb (x y : Extremity) : bool :=
  match x, y with
  | BEGIN, BEGIN | END, END => true
  | _, _ => false
  end.

Definition endpoint_eqb (a b : TrackEndpoint) : bool :=
  Nat.eqb (endpoint_track a) (endpoint_track b)
  && Extremity_eqb (endpoint_extremity a) (endpoint_extremity b).

Record Detector := mkDetector {
  detector_label : string;
  detector_position : Z
}.

Record LogicalSignal := mkLogicalSignal {
  signaling_system : infra_editor.SignalingSystem;
  settings : list (string * string);
  default_parameters : list (string * string);
  conditional_parameters : list (string * list (string * string))
}.

Record Signal := mkSignal {
  signal_label : string;
  signal_position : Z;
  signal_direction : ApplicableDirection;
  is_route_delimiter : bool;
  sight_distance : option Z;
  logical_signals : list LogicalSignal
}.

Record BufferStop := mkBufferStop {
  buffer_stop_label : string;
  buffer_stop_position : Z
}.

Record TrackSection := mkTrack {
  track_label : string;
  track_length : Z;
  begin_coords : option (Z * Z);
  end_coords : option (Z * Z);
  detectors : list Detector;
  signals : list Signal;
  buffer_stops : list BufferStop
}.

Record Link := mkLink {
  link_label : string;
  link_a : TrackEndpoint;
  link_b : TrackEndpoint
}.

(** A switch type: its name and its named ports; the arity is their number. *)
Record SwitchType := mkSwitchType {
  switch_type_name : string;
  port_names : list string
}.

Definition point_switch : SwitchType :=
  mkSwitchType "point_switch" ["base"; "branch_a"; "branch_b"].

Record Switch := mkSwitch {
  switch_label : string;
  switch_type : SwitchType;
  ports : list (string * TrackEndpoint)
}.

(** Modelled from the spec: the identifier allocator, "per-kind monotonically
    increasing counters, scoped to one builder instance (not process-global),
    producing default labels of the form <kind>.<n> when the caller does not
    supply one". *)
Inductive Kind :=
| KTrackSection
| KLink
| KSwitch
| KDetector
| KSignal
| KBufferStop
| KSpeedSection.

Definition kind_name (k : Kind) : string :=
  match k with
  | KTrackSection => "track_section"
  | KLink => "link"
  | KSwitch => "switch"
  | KDetector => "detector"
  | KSignal => "signal"
  | KBufferStop => "buffer_stop"
  | KSpeedSection => "speed_section"
  end.

Definition Kind_eqb (x y : Kind) : bool :=
  String.eqb (kind_name x) (kind_name y).

Definition Allocator := Kind → nat.

Definition allocate (k : Kind) (a : Allocator) : string * Allocator :=
  (kind_name k +:+ "." +:+ pretty (a k),
   fun k' => if Kind_eqb k k' then (a k + 1)%nat else a k').

(** The caller's label, or the next default one. *)
Definition label_or_default (k : Kind) (label : option string) (a : Allocator)
  : string * Allocator :=
  match label with
  | Some s => (s, a)
  | None => allocate k a
  end.

(** Modelled from the spec: the assembler, "the mutable construction
    context".  [built] is false in the Building state and true in the
    terminal Built state. *)
Record Builder := mkBuilder {
  built : bool;
  track_sections : list TrackSection;
  links : list Link;
  switches : list Switch;
  speed_sections : list speed_section.SpeedSection;
  allocator : Allocator
}.

(** [InfraBuilder()] *)
Definition InfraBuilder_init : Builder :=
  mkBuilder false [] [] [] [] (fun _ => 0%nat).

Definition set_track_sections (ts : list TrackSection) (b : Builder) : Builder :=
  mkBuilder (built b) ts (links b) (switches b) (speed_sections b) (allocator b).

Definition set_allocator (a : Allocator) (b : Builder) : Builder :=
  mkBuilder (built b) (track_sections b) (links b) (switches b)
    (speed_sections b) a.

(** "the assembler rejects further mutation" once built. *)
Definition check_building (b : Builder) : result unit :=
  if built b then Err NotBuilding else Ok tt.

Definition get_track (t : TrackRef) (b : Builder) : result TrackSection :=
  match track_sections b !! t with
  | Some tr => Ok tr
  | None => Err (ValidationError "unknown track section")
  end.

(** The endpoints that links and switch ports consume, in creation order. *)
Definition consumed_endpoints (b : Builder) : list TrackEndpoint :=
  flat_map (fun l => [link_a l; link_b l]) (links b)
  ++ flat_map (fun s => (ports s).*2) (switches b).

Definition is_consumed (e : TrackEndpoint) (b : Builder) : bool :=
  existsb (endpoint_eqb e) (consumed_endpoints b).

Definition in_bounds (position : Z) (tr : TrackSection) : bool :=
  (0 <=? position)%Z && (position <=? track_length tr)%Z.

(** Modelled from the spec: "create a track section given a length and
    optional label (fails if length < 0, or if the label is already taken)".
    The handle returned is the reference to the new track. *)
Definition add_track_section (length_ : Z) (label : option string) (b : Builder)
  : result (TrackRef * Builder) :=
  _ ← check_building b;
  if (length_ <? 0)%Z then Err (ValidationError "length") else
  let '(lbl, a) := label_or_default KTrackSection label (allocator b) in
  if existsb (String.eqb lbl) (track_label <$> track_sections b)
  then Err (DuplicateIdentifier lbl)
  else
    Ok (length (track_sections b),
        set_allocator a
          (set_track_sections
             (track_sections b ++ [mkTrack lbl length_ None None [] [] []]) b)).

(** [track.begin()] and [track.end()]: "pure lookups, no side effect". *)
Definition begin (t : TrackRef) : TrackEndpoint := mkEndpoint t BEGIN.
Definition end_ (t : TrackRef) : TrackEndpoint := mkEndpoint t END.

(** [endpoint.set_coords(x, y)]: "optional coordinate pairs attached at
    endpoints". *)
Definition set_coords (e : TrackEndpoint) (x y : Z) (b : Builder)
  : result Builder :=
  _ ← check_building b;
  tr ← get_track (endpoint_track e) b;
  let tr' :=
    match endpoint_extremity e with
    | BEGIN => mkTrack (track_label tr) (track_length tr) (Some (x, y))
                 (end_coords tr) (detectors tr) (signals tr) (buffer_stops tr)
    | END => mkTrack (track_label tr) (track_length tr) (begin_coords tr)
               (Some (x, y)) (detectors tr) (signals tr) (buffer_stops tr)
    end in
  Ok (set_track_sections (<[endpoint_track e := tr']> (track_sections b)) b).

(** Modelled from the spec: "add_link(endpoint_a, endpoint_b) - fails if
    either endpoint is already consumed, or if both endpoints belong to the
    same track section". *)
Definition add_link (endpoint_a endpoint_b : TrackEndpoint) (b : Builder)
  : result (Link * Builder) :=
  _ ← check_building b;
  _ ← get_track (endpoint_track endpoint_a) b;
  _ ← get_track (endpoint_track endpoint_b) b;
  if is_consumed endpoint_a b || is_consumed endpoint_b b
  then Err EndpointAlreadyConsumed
  else if Nat.eqb (endpoint_track endpoint_a) (endpoint_track endpoint_b)
  then Err (ValidationError "link between the two ends of one track section")
  else
    let '(lbl, a) := allocate KLink (allocator b) in
    let l := mkLink lbl endpoint_a endpoint_b in
    Ok (l, mkBuilder (built b) (track_sections b) (links b ++ [l])
             (switches b) (speed_sections b) a).

(** No endpoint of the list is consumed already, nor given twice. *)
Fixpoint all_free (es : list TrackEndpoint) (b : Builder) : bool :=
  match es with
  | [] => true
  | e :: es' =>
      negb (is_consumed e b) && negb (existsb (endpoint_eqb e) es')
      && all_free es' b
  end.

(** Modelled from the spec: a switch of a given type - "fails if any
    endpoint is already consumed, or if endpoint count mismatches the switch
    type's arity". *)
Definition add_switch (ty : SwitchType) (endpoints : list TrackEndpoint)
  (label : option string) (b : Builder) : result (Switch * Builder) :=
  _ ← check_building b;
  if negb (Nat.eqb (length endpoints) (length (port_names ty)))
  then Err ArityMismatch
  else if negb (forallb (fun e => is_ok (get_track (endpoint_track e) b)) endpoints)
  then Err (ValidationError "unknown track section")
  else if negb (all_free endpoints b)
  then Err EndpointAlreadyConsumed
  else
    let '(lbl, a) := label_or_default KSwitch label (allocator b) in
    let s := mkSwitch lbl ty (zip (port_names ty) endpoints) in
    Ok (s, mkBuilder (built b) (track_sections b) (links b)
             (switches b ++ [s]) (speed_sections b) a).

(** [add_point_switch(base, branch_a, branch_b, label?)] *)
Definition add_point_switch (base branch_a branch_b : TrackEndpoint)
  (label : option string) (b : Builder) : result (Switch * Builder) :=
  add_switch point_switch [base; branch_a; branch_b] label b.

(** Modelled from the spec: "attach any positioned object to a track at a
    given offset (fails if offset is outside [0, length])"; the object is
    appended to the track's collection of its kind, and is returned. *)
Definition add_detector (t : TrackRef) (position : Z) (label : option string)
  (b : Builder) : result (Detector * Builder) :=
  _ ← check_building b;
  tr ← get_track t b;
  if negb (in_bounds position tr) then Err OutOfBoundsOffset else
  let '(lbl, a) := label_or_default KDetector label (allocator b) in
  let d := mkDetector lbl position in
  let tr' := mkTrack (track_label tr) (track_length tr) (begin_coords tr)
               (end_coords tr) (detectors tr ++ [d]) (signals tr)
               (buffer_stops tr) in
  Ok (d, set_allocator a (set_track_sections (<[t := tr']> (track_sections b)) b)).

Definition add_buffer_stop (t : TrackRef) (position : Z) (label : option string)
  (b : Builder) : result (BufferStop * Builder) :=
  _ ← check_building b;
  tr ← get_track t b;
  if negb (in_bounds position tr) then Err OutOfBoundsOffset else
  let '(lbl, a) := label_or_default KBufferStop label (allocator b) in
  let s := mkBufferStop lbl position in
  let tr' := mkTrack (track_label tr) (track_length tr) (begin_coords tr)
               (end_coords tr) (detectors tr) (signals tr)
               (buffer_stops tr ++ [s]) in
  Ok (s, set_allocator a (set_track_sections (<[t := tr']> (track_sections b)) b)).

(** A reference to a signal object: its track and its rank among the signals
    attached to that track. *)
Definition SignalRef : Type := TrackRef * nat.

Definition add_signal (t : TrackRef) (position : Z)
  (direction : ApplicableDirection) (is_route_delimiter : bool)
  (label : option string) (sight_distance : option Z) (b : Builder)
  : result (SignalRef * Builder) :=
  _ ← check_building b;
  tr ← get_track t b;
  if negb (in_bounds position tr) then Err OutOfBoundsOffset else
  let '(lbl, a) := label_or_default KSignal label (allocator b) in
  let s := mkSignal lbl position direction is_route_delimiter sight_distance [] in
  let tr' := mkTrack (track_label tr) (track_length tr) (begin_coords tr)
               (end_coords tr) (detectors tr) (signals tr ++ [s])
               (buffer_stops tr) in
  Ok ((t, length (signals tr)),
      set_allocator a (set_track_sections (<[t := tr']> (track_sections b)) b)).

(** Modelled from the spec: "Unknown/unsupported signaling-system kinds are
    rejected at construction time"; the kinds are those of
    [infra_editor.SignalingSystem].  The new logical signal is appended to
    the signal's list. *)
Definition add_logical_signal (s : SignalRef) (kind : string)
  (settings : list (string * string)) (b : Builder) : result Builder :=
  _ ← check_building b;
  tr ← get_track s.1 b;
  match infra_editor.SignalingSystem_of_value kind, signals tr !! s.2 with
  | None, _ => Err (UnknownVariant kind)
  | _, None => Err (ValidationError "unknown signal")
  | Some k, Some sig =>
      let sig' := mkSignal (signal_label sig) (signal_position sig)
                    (signal_direction sig) (is_route_delimiter sig)
                    (sight_distance sig)
                    (logical_signals sig ++ [mkLogicalSignal k settings [] []]) in
      let tr' := mkTrack (track_label tr) (track_length tr) (begin_coords tr)
                   (end_coords tr) (detectors tr) (<[s.2 := sig']> (signals tr))
                   (buffer_stops tr) in
      Ok (set_track_sections (<[s.1 := tr']> (track_sections b)) b)
  end.

(** Modelled from the spec: [add_speed_section] "registers the new entity
    under the allocator", the allocator being the builder's own "per-kind
    monotonically increasing counters, scoped to one builder instance (not
    process-global)"; "class-level mutable counters (used for default-label
    generation) must become an explicit allocator object owned by each builder
    instance".  InfraBuilder is not among the sources, so which label it gives
    to a speed section is read from these sentences: the caller's label, or
    the next "speed_section.<n>" of the builder's allocator.  The speed section
    itself is constructed by the dataclass of speed_section.py with that label,
    so the default factory of [label] there (the class-level counter) is not
    run; the two containers come from its default factories. *)
Definition add_speed_section (speed_limit : float) (label : option string)
  (b : Builder) (st : speed_section.State)
  : result (speed_section.SpeedSection * Builder * speed_section.State) :=
  _ ← check_building b;
  let '(lbl, a) := label_or_default KSpeedSection label (allocator b) in
  let '(s, st') :=
    speed_section.SpeedSection_init speed_limit None None (Some lbl) None st in
  Ok (s, mkBuilder (built b) (track_sections b) (links b) (switches b)
           (speed_sections b ++ [s]) a, st').


(** *** build() *)

(** Modelled from the spec: "detectors and signals must be ordered by
    ascending offset at build() time - objects at equal offsets keep
    insertion order".  This is what Python's [list.sort(key=...)] returns; it
    is written here as an insertion sort that puts an element before the
    first one whose key is not smaller. *)
Fixpoint insert_sorted {A} (key : A → Z) (x : A) (l : list A) : list A :=
  match l with
  | [] => [x]
  | y :: l' =>
      if (key x <=? key y)%Z then x :: y :: l'
      else y :: insert_sorted key x l'
  end.

Fixpoint sort_by {A} (key : A → Z) (l : list A) : list A :=
  match l with
  | [] => []
  | x :: l' => insert_sorted key x (sort_by key l')
  end.

(** The order by ascending key. *)
Definition key_le {A} (key : A → Z) (x y : A) : Prop := (key x ≤ key y)%Z.

(** The canonical document: "one array per entity kind, each entry carrying
    its identifier and fields".  An entry refers to a track section by its
    identifier. *)
Record RjsTrackSection := mkRjsTrack {
  rjs_track_id : string;
  rjs_track_length : Z;
  rjs_track_coords : option (Z * Z) * option (Z * Z)
}.

Definition RjsEndpoint : Type := string * Extremity.

Record RjsLink := mkRjsLink {
  rjs_link_id : string;
  rjs_link_a : RjsEndpoint;
  rjs_link_b : RjsEndpoint
}.

Record RjsSwitch := mkRjsSwitch {
  rjs_switch_id : string;
  rjs_switch_type : string;
  rjs_switch_ports : list (string * RjsEndpoint)
}.

Record RjsRange := mkRjsRange {
  rjs_range_track : string;
  rjs_range_begin : Z;
  rjs_range_end : Z;
  rjs_range_directions : ApplicableDirection
}.

Record RjsSpeedSection := mkRjsSpeedSection {
  rjs_speed_id : string;
  rjs_speed_limit : float;
  rjs_speed_limit_by_tag : gmap string float;
  rjs_speed_track_ranges : list RjsRange;
  rjs_speed_on_routes : option (list string)
}.

Record Document := mkDocument {
  doc_track_sections : list RjsTrackSection;
  doc_links : list RjsLink;
  doc_switches : list RjsSwitch;
  doc_detectors : list (string * Detector);
  doc_signals : list (string * Signal);
  doc_buffer_stops : list (string * BufferStop);
  doc_speed_sections : list RjsSpeedSection
}.

(** The identifier of the track a reference points to. *)
Definition track_id (b : Builder) (t : TrackRef) : string :=
  default "" (track_label <$> track_sections b !! t).

Definition encode_endpoint (b : Builder) (e : TrackEndpoint) : RjsEndpoint :=
  (track_id b (endpoint_track e), endpoint_extremity e).

Definition encode_track (tr : TrackSection) : RjsTrackSection :=
  mkRjsTrack (track_label tr) (track_length tr) (begin_coords tr, end_coords tr).

Definition encode_link (b : Builder) (l : Link) : RjsLink :=
  mkRjsLink (link_label l) (encode_endpoint b (link_a l))
    (encode_endpoint b (link_b l)).

Definition encode_switch (b : Builder) (s : Switch) : RjsSwitch :=
  mkRjsSwitch (switch_label s) (switch_type_name (switch_type s))
    (prod_map id (encode_endpoint b) <$> ports s).

Definition encode_range (b : Builder)
  (r : range_elements.ApplicableDirectionsTrackRange) : RjsRange :=
  mkRjsRange (track_id b (range_elements.track r)) (range_elements.begin r)
    (range_elements.end_ r) (range_elements.applicable_directions r).

(** [SpeedSection.to_rjs] of speed_section.py, the containers being read at
    their addresses. *)
Definition to_rjs (b : Builder) (st : speed_section.State)
  (self : speed_section.SpeedSection) : RjsSpeedSection :=
  mkRjsSpeedSection (speed_section.label self) (speed_section.speed_limit self)
    (speed_section.get_speed_limit_by_tag self st)
    (encode_range b <$> speed_section.get_track_ranges self st)
    (speed_section.on_routes self).

(** The detectors, signals and buffer stops of a track as the document lists
    them: detectors and signals by ascending offset, buffer stops as
    attached. *)
Definition track_detectors (tr : TrackSection) : list (string * Detector) :=
  pair (track_label tr) <$> sort_by detector_position (detectors tr).

Definition track_signals (tr : TrackSection) : list (string * Signal) :=
  pair (track_label tr) <$> sort_by signal_position (signals tr).

Definition track_buffer_stops (tr : TrackSection) : list (string * BufferStop) :=
  pair (track_label tr) <$> buffer_stops tr.

Definition encode (b : Builder) (st : speed_section.State) : Document :=
  mkDocument
    (encode_track <$> track_sections b)
    (encode_link b <$> links b)
    (encode_switch b <$> switches b)
    (flat_map track_detectors (track_sections b))
    (flat_map track_signals (track_sections b))
    (flat_map track_buffer_stops (track_sections b))
    (to_rjs b st <$> speed_sections b).

(** The first label that occurs twice, if any. *)
Fixpoint first_duplicate (labels : list string) : option string :=
  match labels with
  | [] => None
  | l :: labels' =>
      if existsb (String.eqb l) labels' then Some l else first_duplicate labels'
  end.

Definition check_unique (labels : list string) : result unit :=
  match first_duplicate labels with
  | Some l => Err (DuplicateIdentifier l)
  | None => Ok tt
  end.

(** "identifier uniqueness across all kinds": within each kind. *)
Definition check_identifiers (b : Builder) : result unit :=
  _ ← check_unique (track_label <$> track_sections b);
  _ ← check_unique (link_label <$> links b);
  _ ← check_unique (switch_label <$> switches b);
  _ ← check_unique (flat_map (fun tr => detector_label <$> detectors tr)
                      (track_sections b));
  _ ← check_unique (flat_map (fun tr => signal_label <$> signals tr)
                      (track_sections b));
  _ ← check_unique (flat_map (fun tr => buffer_stop_label <$> buffer_stops tr)
                      (track_sections b));
  check_unique (speed_section.label <$> speed_sections b).

(** "no endpoint consumed twice" *)
Fixpoint no_repeat (es : list TrackEndpoint) : bool :=
  match es with
  | [] => true
  | e :: es' => negb (existsb (endpoint_eqb e) es') && no_repeat es'
  end.

Definition check_endpoints (b : Builder) : result unit :=
  if no_repeat (consumed_endpoints b) then Ok tt
  else Err EndpointAlreadyConsumed.

(** "every attached object's offset satisfies 0 <= offset <= length" *)
Definition track_offsets_ok (tr : TrackSection) : bool :=
  forallb (fun d => in_bounds (detector_position d) tr) (detectors tr)
  && forallb (fun s => in_bounds (signal_position s) tr) (signals tr)
  && forallb (fun s => in_bounds (buffer_stop_position s) tr) (buffer_stops tr).

Definition check_offsets (b : Builder) : result unit :=
  if forallb track_offsets_ok (track_sections b) then Ok tt
  else Err OutOfBoundsOffset.

(** "every speed-section ... range within track bounds", and no range whose
    end precedes its begin. *)
Definition range_ok (b : Builder)
  (r : range_elements.ApplicableDirectionsTrackRange) : bool :=
  match track_sections b !! range_elements.track r with
  | Some tr =>
      (0 <=? range_elements.begin r)%Z
      && (range_elements.begin r <=? range_elements.end_ r)%Z
      && (range_elements.end_ r <=? track_length tr)%Z
  | None => false
  end.

Definition check_ranges (b : Builder) (st : speed_section.State) : result unit :=
  if forallb (fun s => forallb (range_ok b) (speed_section.get_track_ranges s st))
       (speed_sections b)
  then Ok tt
  else Err OutOfBoundsOffset.

(** Modelled from the spec: "build() -> Document - validates global
    invariants (identifier uniqueness across all kinds, no endpoint consumed
    twice, every speed-section/electrification range within track bounds) and
    returns an immutable, serializable graph; fails atomically ... After this
    call the assembler refuses further mutating calls." *)
Definition build (b : Builder) (st : speed_section.State)
  : result (Document * Builder) :=
  _ ← check_building b;
  _ ← check_identifiers b;
  _ ← check_endpoints b;
  _ ← check_offsets b;
  _ ← check_ranges b st;
  Ok (encode b st,
      mkBuilder true (track_sections b) (links b) (switches b)
        (speed_sections b) (allocator b)).

(** Reading a document: the entries of one track, the endpoints of the track
    sections, the endpoints that links and switch ports consume. *)
Definition on_track {A} (track : string) (entries : list (string * A)) : list A :=
  (filter (fun e => e.1 = track) entries).*2.

Definition doc_endpoints (doc : Document) : list RjsEndpoint :=
  flat_map (fun t => [(rjs_track_id t, BEGIN); (rjs_track_id t, END)])
    (doc_track_sections doc).

Definition doc_consumed (doc : Document) : list RjsEndpoint :=
  flat_map (fun l => [rjs_link_a l; rjs_link_b l]) (doc_links doc)
  ++ flat_map (fun s => (rjs_switch_ports s).*2) (doc_switches doc).

Definition RjsEndpoint_eqb (x y : RjsEndpoint) : bool :=
  String.eqb x.1 y.1 && Extremity_eqb x.2 y.2.

(** The number of links and switch ports that consume an endpoint. *)
Definition consumers (doc : Document) (e : RjsEndpoint) : nat :=
  length (filter (fun c => RjsEndpoint_eqb c e = true) (doc_consumed doc)).

Definition dangling_endpoints (doc : Document) : list RjsEndpoint :=
  filter (fun e => consumers doc e = 0%nat) (doc_endpoints doc).

End infra_builder.

(** ** The generation scripts *)

(** A [for] loop whose body updates the builder and may raise. *)
Fixpoint for_each {A S} (body : A → S → result S) (l : list A) (s : S)
  : result S :=
  match l with
  | [] => Ok s
  | x :: l' => s' ← body x s; for_each body l' s'
  end.

(** tests/infra-scripts/one_line.py *)
Module one_line.
Import infra_builder.

(** [[builder.add_track_section(length=1000) for _ in range(n)]] *)
Fixpoint add_track_sections (n : nat) (builder : Builder)
  : result (list TrackRef * Builder) :=
  match n with
  | O => Ok ([], builder)
  | S n' =>
      '(track, builder) ← add_track_section 1000 None builder;
      '(tracks, builder) ← add_track_sections n' builder;
      Ok (track :: tracks, builder)
  end.

(** [track.inverted = i % 2 == 1]: the attribute travels with the track. *)
Definition inverted (i : nat) : bool := (i mod 2 =? 1)%nat.

Definition set_coordinates (i : nat) (track : TrackRef * bool)
  (builder : Builder) : result Builder :=
  if track.2 then
    builder ← set_coords (begin track.1) (1000 * Z.of_nat i) 0 builder;
    set_coords (end_ track.1) (1000 * (Z.of_nat i + 1)) 0 builder
  else
    builder ← set_coords (end_ track.1) (1000 * Z.of_nat i) 0 builder;
    set_coords (begin track.1) (1000 * (Z.of_nat i + 1)) 0 builder.

Definition link_tracks (first_track second_track : TrackRef * bool)
  (builder : Builder) : result Builder :=
  let first_endpoint :=
    if first_track.2 then begin first_track.1 else end_ first_track.1 in
  let second_endpoint :=
    if second_track.2 then end_ second_track.1 else begin second_track.1 in
  '(_, builder) ← add_link first_endpoint second_endpoint builder;
  Ok builder.

Definition add_detector_and_signals (track : TrackRef * bool)
  (builder : Builder) : result Builder :=
  '(detector, builder) ← add_detector track.1 500 None builder;
  '(signal, builder) ← add_signal track.1 (detector_position detector)
                         START_TO_STOP true None None builder;
  builder ← add_logical_signal signal "BAL" [("Nf", "true")] builder;
  '(signal, builder) ← add_signal track.1 (detector_position detector)
                         STOP_TO_START true None None builder;
  add_logical_signal signal "BAL" [("Nf", "true")] builder.

(** [_build_scenario_data()], run in the process state [st]; the result is
    the [infra] of the scenario data. *)
Definition _build_scenario_data (st : speed_section.State) : result Document :=
  let builder := InfraBuilder_init in
  '(base_tracks, builder) ← add_track_sections 10 builder;
  let tracks := imap (fun i track => (track, inverted i)) base_tracks in
  builder ← for_each (fun it => set_coordinates it.1 it.2)
              (zip (seq 0 (length tracks)) tracks) builder;
  builder ← for_each (fun pair => link_tracks pair.1 pair.2)
              (zip (removelast tracks) (drop 1 tracks)) builder;
  builder ← for_each add_detector_and_signals tracks builder;
  '(infra, _) ← build builder st;
  Ok infra.

End one_line.

(** tests/infra-scripts/circle_infra.py *)
Module circle_infra.
Import infra_builder.

Definition _build_scenario_data (st : speed_section.State) : result Document :=
  let builder := InfraBuilder_init in
  '(track_a, builder) ← add_track_section 200 (Some "track_a") builder;
  '(track_b, builder) ← add_track_section 200 (Some "track_b") builder;
  '(track_c, builder) ← add_track_section 200 (Some "track_c") builder;
  '(track_d, builder) ← add_track_section 200 (Some "track_d") builder;
  '(_, builder) ← add_link (end_ track_d) (begin track_a) builder;
  '(_, builder) ← add_point_switch (end_ track_a) (begin track_b)
                    (begin track_c) (Some "switch1") builder;
  '(_, builder) ← add_point_switch (begin track_d) (end_ track_b)
                    (end_ track_c) (Some "switch2") builder;
  '(infra, _) ← build builder st;
  Ok infra.

End circle_infra.

(** tests/infra-scripts/takeover.py, the part about the speed limit: the
    track [t_takeover] and the speed section put on it.  The script gives the
    range the bounds [0] and [t_takeover.length]; they are arguments here. *)
Module takeover.
Import infra_builder.

Definition speed_limit_on_t_takeover (range_begin range_end : Z)
  (st : speed_section.State)
  : result (Builder * speed_section.State * speed_section.SpeedSection * nat) :=
  let builder := InfraBuilder_init in
  '(t_takeover, builder) ← add_track_section 2100 (Some "t_takeover") builder;
  '(speed_limit, builder, st) ← add_speed_section (30 / 3.6)%float None builder st;
  st ← speed_section.add_track_range speed_limit t_takeover range_begin
         range_end BOTH st;
  Ok (builder, st, speed_limit, t_takeover).

End takeover.

(** ** infra_editor.py: the functions on the generated JSON schema *)

Module schema_tools.

(** A JSON document as Python holds it: [None], [bool], [int], [float],
    [str], [list], and [dict] with string keys in insertion order.  The
    documents here are trees (they come from [model_json_schema()]): no dict
    object occurs at two places. *)
Inductive json :=
| JNull
| JBool (b : bool)
| JInt (z : Z)
| JFloat (f : float)
| JStr (s : string)
| JList (l : list json)
| JDict (d : list (string * json)).

(** The exceptions that indexing and attribute access raise. *)
Inductive exception :=
| KeyError (key : json)
| IndexError
| TypeError
| AttributeError.

Inductive outcome (A : Type) :=
| Return (a : A)
| Raise (e : exception).
Arguments Return {A} a.
Arguments Raise {A} e.

#[global] Instance outcome_ret : MRet outcome := fun A a => Return a.
#[global] Instance outcome_bind : MBind outcome := fun A B k r =>
  match r with
  | Return a => k a
  | Raise e => Raise e
  end.

(** [d.get(key)] *)
Fixpoint get (key : string) (d : list (string * json)) : option json :=
  match d with
  | [] => None
  | (k, v) :: d' => if String.eqb k key then Some v else get key d'
  end.

(** [d[key] = v]: the value of an existing key is replaced where it is, a new
    key goes to the end. *)
Fixpoint set (key : string) (v : json) (d : list (string * json))
  : list (string * json) :=
  match d with
  | [] => [(key, v)]
  | (k, x) :: d' =>
      if String.eqb k key then (k, v) :: d' else (k, x) :: set key v d'
  end.

(** [v[key]] for a string [key] *)
Definition getitem (v : json) (key : string) : outcome json :=
  match v with
  | JDict d =>
      match get key d with
      | Some x => Return x
      | None => Raise (KeyError (JStr key))
      end
  | _ => Raise TypeError
  end.

(** [v[0]] *)
Definition getitem_0 (v : json) : outcome json :=
  match v with
  | JList (x :: _) => Return x
  | JList [] => Raise IndexError
  | JStr (String c _) => Return (JStr (String c EmptyString))
  | JStr EmptyString => Raise IndexError
  | JDict _ => Raise (KeyError (JInt 0))
  | _ => Raise TypeError
  end.

(** [v.items()] *)
Definition items (v : json) : outcome (list (string * json)) :=
  match v with
  | JDict d => Return d
  | _ => Raise AttributeError
  end.

(** [s.endswith(suffix)] *)
Definition endswith (s suffix : string) : bool :=
  (String.length suffix <=? String.length s)%nat
  && String.eqb
       (String.substring (String.length s - String.length suffix)
          (String.length suffix) s)
       suffix.

(** [prop_def["anyOf"][0]["$ref"]] *)
Definition ref_of (prop_def : json) : outcome json :=
  any_of ← getitem prop_def "anyOf";
  first ← getitem_0 any_of;
  getitem first "$ref".

(** The body of the inner loop of [make_extensions_non_nullable]: the new
    definition of one property. *)
Definition non_nullable (prop_def : json) : outcome json :=
  any_of ← getitem prop_def "anyOf";
  first ← getitem_0 any_of;
  ref ← getitem first "$ref";
  Return (JDict [("default", JNull); ("$ref", ref)]).

(** The form of a new definition of a property. *)
Definition is_non_nullable (q : json) : Prop :=
  ∃ ref, q = JDict [("default", JNull); ("$ref", ref)].

(** The inner loop: [new_properties[prop_name] = {...}] for each property. *)
Fixpoint new_properties_loop (properties new_properties : list (string * json))
  : outcome (list (string * json)) :=
  match properties with
  | [] => Return new_properties
  | (prop_name, prop_def) :: properties' =>
      p ← non_nullable prop_def;
      new_properties_loop properties' (set prop_name p new_properties)
  end.

(** The body of the outer loop, for one entry of [schema["$defs"]]; the
    result is the definition after the iteration. *)
Definition update_definition (name : string) (definition : json)
  : outcome json :=
  if negb (endswith name "Extensions") then Return definition
  else
    properties ← getitem definition "properties";
    properties ← items properties;
    new_properties ← new_properties_loop properties [];
    match definition with
    | JDict d => Return (JDict (set "properties" (JDict new_properties) d))
    | _ => Raise TypeError
    end.

Fixpoint definitions_loop (defs : list (string * json))
  : outcome (list (string * json)) :=
  match defs with
  | [] => Return []
  | (name, definition) :: defs' =>
      definition' ← update_definition name definition;
      rest ← definitions_loop defs';
      Return ((name, definition') :: rest)
  end.

(** [make_extensions_non_nullable(schema)]: the function returns nothing and
    changes [schema] in place; the result here is [schema] after the call. *)
Definition make_extensions_non_nullable (schema : list (string * json))
  : outcome (list (string * json)) :=
  defs ← getitem (JDict schema) "$defs";
  defs ← items defs;
  defs' ← definitions_loop defs;
  Return (set "$defs" (JDict defs') schema).

(** *** The translation schema *)

(** ASCII letters and white space, as [[a-z]], [[A-Z]], [\s],
    [str.islower], [str.lower] and [str.split] see them. *)
Definition is_lower (c : Ascii.ascii) : bool :=
  (97 <=? Ascii.nat_of_ascii c)%nat && (Ascii.nat_of_ascii c <=? 122)%nat.

Definition is_upper (c : Ascii.ascii) : bool :=
  (65 <=? Ascii.nat_of_ascii c)%nat && (Ascii.nat_of_ascii c <=? 90)%nat.

Definition is_space (c : Ascii.ascii) : bool :=
  let n := Ascii.nat_of_ascii c in
  ((9 <=? n)%nat && (n <=? 13)%nat) || ((28 <=? n)%nat && (n <=? 32)%nat).

Definition lower (c : Ascii.ascii) : Ascii.ascii :=
  if is_upper c then Ascii.ascii_of_nat (Ascii.nat_of_ascii c + 32) else c.

(** [re.sub(r"(?:(?<=[a-z])(?=[A-Z])|(?<=[^\s])(?=[A-Z][a-z]))", " ", title)]:
    a space is put between two characters when the first is a lower-case
    letter and the second an upper-case one, or when the first is not white
    space, the second is an upper-case letter and the one after it a
    lower-case letter.  [prev] is the character before [s], if any. *)
Fixpoint insert_spaces (prev : option Ascii.ascii) (s : string) : string :=
  match s with
  | EmptyString => EmptyString
  | String c rest =>
      let boundary :=
        match prev with
        | None => false
        | Some p =>
            (is_lower p && is_upper c)
            || (negb (is_space p) && is_upper c
                && match rest with
                   | String next _ => is_lower next
                   | EmptyString => false
                   end)
        end in
      let tail := String c (insert_spaces (Some c) rest) in
      if boundary then String Ascii.Space tail else tail
  end.

(** [s.split()]: the maximal runs of characters that are not white space.
    [word] is the run being read. *)
Fixpoint split (s : string) (word : string) : list string :=
  match s with
  | EmptyString =>
      match word with
      | EmptyString => []
      | _ => [word]
      end
  | String c rest =>
      if is_space c then
        match word with
        | EmptyString => split rest EmptyString
        | _ => word :: split rest EmptyString
        end
      else split rest (word +:+ String c EmptyString)
  end.

(** [word[0].lower() + word[1:] if len(word) > 1 and word[1].islower()
    else word] *)
Definition lower_initial (word : string) : string :=
  match word with
  | String c (String c' rest) =>
      if is_lower c' then String (lower c) (String c' rest) else word
  | _ => word
  end.

(** [" ".join(words)] *)
Fixpoint join (words : list string) : string :=
  match words with
  | [] => EmptyString
  | [w] => w
  | w :: words' => w +:+ " " +:+ join words'
  end.

(** [normalize_title_case(title)], for titles of ASCII characters. *)
Definition normalize_title_case (title : string) : outcome string :=
  let words := split (insert_spaces None title) EmptyString in
  match words with
  | [] => Raise IndexError
  | first :: others => Return (join (first :: (lower_initial <$> others)))
  end.

(** The characters of a string, those that are not white space, and the
    strings of white space only. *)
Definition chars (s : string) : list Ascii.ascii := String.list_ascii_of_string s.

Definition visible (s : string) : list Ascii.ascii :=
  filter (fun c => is_space c = false) (chars s).

Definition blank (s : string) : bool := forallb is_space (chars s).

(** The strings of ASCII characters, on which a character of the string is
    a character for Python. *)
Definition ascii_only (s : string) : Prop :=
  Forall (fun c => (Ascii.nat_of_ascii c < 128)%nat) (chars s).

(** A word: at least one character, none of them white space. *)
Definition is_word (w : string) : Prop :=
  w ≠ EmptyString ∧ visible w = chars w.

(** The form of a node of a translation schema: a dict that is not empty,
    whose values are strings under the keys "description" and "title", and
    nodes of the same form. *)
Inductive is_translation : json → Prop :=
| is_translation_node (d : list (string * json)) :
    d ≠ [] →
    Forall (fun kv => (∃ text, kv.2 = JStr text
                               ∧ (kv.1 = "description" ∨ kv.1 = "title"))
                      ∨ is_translation kv.2) d →
    is_translation (JDict d).

Section translation.

(** The normalisation of titles that [to_translation_schema] applies. *)
Variable normalize : string → outcome string.

(** The loop of [to_translation_schema] over the items of a node, given the
    function for the nodes below. *)
Definition translation_loop (translate : json → outcome (option json))
  : list (string * json) → list (string * json)
    → outcome (list (string * json)) :=
  fix loop node_items new_node :=
    match node_items with
    | [] => Return new_node
    | (key, value) :: node_items' =>
        new_node ←
          match value with
          | JStr text =>
              if String.eqb key "description" then
                Return (set key value new_node)
              else if String.eqb key "title" then
                title ← normalize text;
                Return (set key (JStr title) new_node)
              else Return new_node
          | JDict (_ :: _) =>
              processed_value ← translate value;
              match processed_value with
              | Some processed => Return (set key processed new_node)
              | None => Return new_node
              end
          | _ => Return new_node
          end;
        loop node_items' new_node
    end.

(** [to_translation_schema(json_node)]; [None] is Python's [None].  The
    function calls itself once per level of nesting, and the interpreter
    bounds the depth of calls: on a node nested deeper than it allows, the
    call raises [RecursionError].  That bound is not part of this model, which
    describes the calls that stay within it; accordingly, what is proved of
    [to_translation_schema] is about calls that return. *)
Fixpoint to_translation_schema (json_node : json) : outcome (option json) :=
  match json_node with
  | JDict d =>
      new_node ← translation_loop to_translation_schema d [];
      match new_node with
      | [] => Return None
      | _ => Return (Some (JDict new_node))
      end
  | _ => Raise AttributeError
  end.

(** One iteration of the loop: what it adds to the new node under the key,
    if anything. *)
Definition step (key : string) (value : json) : outcome (option json) :=
  match value with
  | JStr text =>
      if String.eqb key "description" then Return (Some value)
      else if String.eqb key "title" then
        title ← normalize text; Return (Some (JStr title))
      else Return None
  | JDict (_ :: _) => to_translation_schema value
  | _ => Return None
  end.

End translation.

(** The strings that [to_translation_schema] passes to the normalisation of
    titles on a node: the string values under the key "title" among the items
    of the node and, at any depth, among those of the non-empty dicts that it
    visits, in the order of the visit. *)
Fixpoint titles (json_node : json) : list string :=
  match json_node with
  | JDict d =>
      (fix loop (node_items : list (string * json)) : list string :=
         match node_items with
         | [] => []
         | (key, value) :: node_items' =>
             match value with
             | JStr text =>
                 if String.eqb key "description" then []
                 else if String.eqb key "title" then [text]
                 else []
             | JDict (_ :: _) => titles value
             | _ => []
             end ++ loop node_items'
         end) d
  | _ => []
  end.

End schema_tools.

(** * Theorems *)

Section geo_lines.
Import make_geo_data.

Lemma make_geo_line_valid (points : LineStringCoords) :
  LineStringCoords_valid points = true →
  make_geo_line points = Ok (mkLineString points "LineString").
Proof.
  intros Hv. unfold make_geo_line, LineString_init. by rewrite Hv.
Qed.

(** C9: for a valid coordinate sequence, [make_geo_lines] returns a mapping
    whose only key is "geo", bound to a LineString whose coordinates are the
    given points, position by position: same length, same vertex at every
    index. *)
Theorem make_geo_lines_exact (points : LineStringCoords) :
  LineStringCoords_valid points = true →
  ∃ (m : gmap string LineString) (line : LineString),
    make_geo_lines points = Ok m
    ∧ dom m = {[ "geo" ]}
    ∧ m !! "geo" = Some line
    ∧ type line = "LineString"
    ∧ coordinates line = points
    ∧ length (coordinates line) = length points
    ∧ ∀ i : nat, coordinates line !! i = points !! i.
Proof.
  intros Hv.
  exists {[ "geo" := mkLineString points "LineString" ]},
         (mkLineString points "LineString").
  unfold make_geo_lines. rewrite (make_geo_line_valid _ Hv). simpl.
  split; [done|]. split; [by rewrite dom_singleton_L|].
  split; [by rewrite lookup_singleton_eq|]. done.
Qed.

Lemma make_geo_lines_exact_witness :
  let points := [Position2D 0 0; Position2D 1000 0; Position3D 2000 0 5] in
  ∃ (m : gmap string LineString) (line : LineString),
    make_geo_lines points = Ok m
    ∧ dom m = {[ "geo" ]}
    ∧ m !! "geo" = Some line
    ∧ type line = "LineString"
    ∧ coordinates line = points
    ∧ length (coordinates line) = length points
    ∧ ∀ i : nat, coordinates line !! i = points !! i.
Proof.
  intros points. apply (make_geo_lines_exact points). reflexivity.
Defined.

End geo_lines.

Section speed_sections.
Import range_elements speed_section.

Lemma _speed_section_id_spec (st : State) :
  _speed_section_id st
  = ("speed_section." +:+ pretty (_index st), set_index (S (_index st)) st).
Proof. unfold _speed_section_id. by rewrite Nat.add_1_r. Qed.

(** The label and the counter after a construction depend on the counter
    before it only. *)
Lemma SpeedSection_init_label limit by_tag ranges lbl routes (st : State) :
  let r := SpeedSection_init limit by_tag ranges lbl routes st in
  label r.1 = default ("speed_section." +:+ pretty (_index st)) lbl
  ∧ _index r.2 = match lbl with Some _ => _index st | None => S (_index st) end.
Proof.
  unfold SpeedSection_init.
  destruct by_tag, ranges, lbl; simpl; rewrite ?Nat.add_1_r; done.
Qed.

Lemma default_label_inj : Inj (=) (=) (fun n : nat => "speed_section." +:+ pretty n).
Proof.
  intros n m H. apply (inj pretty).
  by apply (inj (String.append "speed_section.")).
Qed.

Lemma create_all_cons limit lbl script (st : State) :
  create_all ((limit, lbl) :: script) st
  = let r := SpeedSection_init limit None None lbl None st in
    let rs := create_all script r.2 in
    (r.1 :: rs.1, rs.2).
Proof.
  simpl. destruct (SpeedSection_init _ _ _ _ _ _) as [s st1]. simpl.
  by destruct (create_all script st1).
Qed.

(** Labels of a run without explicit labels, started with the counter at
    [_index st]. *)
Lemma create_all_default_labels (limits : list float) (st : State) :
  label <$> (create_all ((fun l => (l, None)) <$> limits) st).1
  = (fun n => "speed_section." +:+ pretty n) <$> seq (_index st) (length limits).
Proof.
  revert st. induction limits as [|l limits IH]; intros st; [done|].
  rewrite fmap_cons, create_all_cons. cbn [fst snd length seq fmap list_fmap].
  destruct (SpeedSection_init_label l None None None None st) as [Hl Hi].
  cbn zeta in Hl, Hi. rewrite Hl. f_equal.
  etrans; [apply IH|]. by rewrite Hi.
Qed.

(** The labels of a run depend on the state before it through the counter
    only. *)
Lemma create_all_deterministic script (st1 st2 : State) :
  _index st1 = _index st2 →
  label <$> (create_all script st1).1 = label <$> (create_all script st2).1.
Proof.
  revert st1 st2. induction script as [|[l lbl] script IH]; intros st1 st2 E;
    [done|].
  rewrite !create_all_cons. cbn [fst snd fmap list_fmap].
  destruct (SpeedSection_init_label l None None lbl None st1) as [Hl1 Hi1].
  destruct (SpeedSection_init_label l None None lbl None st2) as [Hl2 Hi2].
  cbn zeta in *. f_equal.
  - by rewrite Hl1, Hl2, E.
  - apply IH. by rewrite Hi1, Hi2, E.
Qed.

(** The generated labels of any run started with the counter at [_index st]:
    consecutive numbers from there, one per step without explicit label. *)
Lemma create_all_auto_labels script (st : State) :
  auto_labels script (create_all script st).1
  = (fun n => "speed_section." +:+ pretty n)
    <$> seq (_index st) (length (filter (fun step => step.2 = None) script)).
Proof.
  revert st. induction script as [|[l lbl] script IH]; intros st; [done|].
  rewrite create_all_cons. cbn [fst snd].
  destruct (SpeedSection_init_label l None None lbl None st) as [Hl Hi].
  cbn zeta in Hl, Hi. destruct lbl as [lbl|]; cbn [auto_labels].
  - rewrite filter_cons_False by done. rewrite IH. by rewrite Hi.
  - rewrite filter_cons_True by done. cbn [length seq fmap list_fmap].
    rewrite Hl, IH, Hi. done.
Qed.

(** C2: [reset_index] sets the counter to 0; after it, k creations without a
    label get "speed_section.0" ... "speed_section.<k-1>" in order, pairwise
    distinct; in a run of any script (with or without explicit labels) after
    a reset the generated labels are "speed_section.0", "speed_section.1", ...
    in order, pairwise distinct; and two runs of one script, each after a
    reset, get the same labels whatever happened before the resets. *)
Theorem reset_index_reproduces_labels (limits : list float)
  (script : list (float * option string)) (st st' : State) :
  _index (reset_index st) = 0%nat
  ∧ label <$> (create_all ((fun l => (l, None)) <$> limits) (reset_index st)).1
    = (fun n => "speed_section." +:+ pretty n) <$> seq 0 (length limits)
  ∧ NoDup (label <$> (create_all ((fun l => (l, None)) <$> limits)
                        (reset_index st)).1)
  ∧ auto_labels script (create_all script (reset_index st)).1
    = (fun n => "speed_section." +:+ pretty n)
      <$> seq 0 (length (filter (fun step => step.2 = None) script))
  ∧ NoDup (auto_labels script (create_all script (reset_index st)).1)
  ∧ label <$> (create_all script (reset_index st)).1
    = label <$> (create_all script (reset_index st')).1.
Proof.
  split; [done|]. split; [apply create_all_default_labels|].
  split; [|split; [apply create_all_auto_labels|split]].
  - rewrite create_all_default_labels.
    apply (NoDup_fmap_2 _), NoDup_seq.
  - rewrite create_all_auto_labels.
    apply (NoDup_fmap_2 _), NoDup_seq.
  - by apply create_all_deterministic.
Qed.

(** *** Containers *)

Lemma get_track_ranges_extend_same (s : SpeedSection) xs (st : State) :
  (track_ranges s < length (lists st))%nat →
  get_track_ranges s (list_extend (track_ranges s) xs st)
  = get_track_ranges s st ++ xs.
Proof.
  intros Hlt. unfold get_track_ranges, list_extend. simpl.
  rewrite list_lookup_alter, decide_True by done.
  destruct (lookup_lt_is_Some_2 _ _ Hlt) as [old ->]. done.
Qed.

Lemma get_track_ranges_extend_other (s s' : SpeedSection) xs (st : State) :
  track_ranges s ≠ track_ranges s' →
  get_track_ranges s' (list_extend (track_ranges s) xs st)
  = get_track_ranges s' st.
Proof.
  intros Hne. unfold get_track_ranges, list_extend. simpl.
  by rewrite list_lookup_alter_ne.
Qed.

(** Extending a list object leaves the dicts and the counter as they are. *)
Lemma list_extend_frame l xs (st : State) :
  dicts (list_extend l xs st) = dicts st
  ∧ _index (list_extend l xs st) = _index st
  ∧ length (lists (list_extend l xs st)) = length (lists st).
Proof. unfold list_extend. simpl. by rewrite length_alter. Qed.

(** A speed section constructed without container arguments refers to a list
    and a dict that did not exist before, both empty; the objects that
    existed keep their contents. *)
Lemma SpeedSection_init_fresh limit lbl routes (st : State) :
  let r := SpeedSection_init limit None None lbl routes st in
  track_ranges r.1 = length (lists st)
  ∧ speed_limit_by_tag r.1 = length (dicts st)
  ∧ lists r.2 = lists st ++ [[]]
  ∧ dicts r.2 = dicts st ++ [∅].
Proof. unfold SpeedSection_init. by destruct lbl. Qed.

(** What the constructor does to the stores, whatever arguments are given:
    one empty object is appended for each container argument that is omitted,
    and nothing else changes. *)
Lemma SpeedSection_init_stores limit by_tag ranges lbl routes (st : State) :
  let r := SpeedSection_init limit by_tag ranges lbl routes st in
  lists r.2 = lists st ++ (if ranges is None then [[]] else [])
  ∧ dicts r.2 = dicts st ++ (if by_tag is None then [∅] else []).
Proof.
  unfold SpeedSection_init.
  destruct by_tag, ranges, lbl; simpl; by rewrite ?app_nil_r.
Qed.

(** One call keeps every dict object, and every list object with, at its end,
    what the call appends to it. *)
Lemma perform_dicts (o : operation) (st : State) :
  dicts st `prefix_of` dicts (perform st o).
Proof.
  destruct o as [limit by_tag ranges lbl routes| | |]; try done.
  simpl. destruct (SpeedSection_init_stores limit by_tag ranges lbl routes st)
    as [_ ->]. by apply prefix_app_r.
Qed.

Lemma perform_lists (o : operation) (st : State) l old :
  lists st !! l = Some old →
  lists (perform st o) !! l = Some (old ++ appended_by l o).
Proof.
  intros Hl.
  destruct o as [limit by_tag ranges lbl routes|self t b e dir|self xs|]; simpl.
  - destruct (SpeedSection_init_stores limit by_tag ranges lbl routes st)
      as [-> _]. rewrite app_nil_r. by apply lookup_app_l_Some.
  - rewrite list_lookup_alter.
    destruct (decide (track_ranges self = l)) as [->|]; [by rewrite Hl|].
    by rewrite app_nil_r.
  - rewrite list_lookup_alter.
    destruct (decide (track_ranges self = l)) as [->|]; [by rewrite Hl|].
    by rewrite app_nil_r.
  - by rewrite app_nil_r.
Qed.

Lemma perform_all_dicts (ops : list operation) (st : State) :
  dicts st `prefix_of` dicts (perform_all ops st).
Proof.
  revert st. induction ops as [|o ops IH]; intros st; [done|].
  simpl. etrans; [apply (perform_dicts o)|apply IH].
Qed.

Lemma perform_all_lists (ops : list operation) (st : State) l old :
  lists st !! l = Some old →
  lists (perform_all ops st) !! l = Some (old ++ appended l ops).
Proof.
  revert st old. induction ops as [|o ops IH]; intros st old Hl.
  - unfold appended. simpl. by rewrite app_nil_r.
  - simpl. rewrite (IH _ _ (perform_lists o st l old Hl)).
    unfold appended. simpl. by rewrite app_assoc.
Qed.

(** No call removes a list object. *)
Lemma perform_all_lists_length (ops : list operation) (st : State) :
  (length (lists st) <= length (lists (perform_all ops st)))%nat.
Proof.
  destruct (decide (length (lists st) = 0%nat)) as [->|Hne]; [lia|].
  destruct (lookup_lt_is_Some_2 (lists st) (length (lists st) - 1))
    as [old Hold]; [lia|].
  apply (perform_all_lists ops) in Hold. apply lookup_lt_Some in Hold. lia.
Qed.

(** C8: a speed section constructed without [speed_limit_by_tag] and
    [track_ranges] arguments refers to a list object and a dict object that the
    constructor creates: their addresses are those of no object of the state
    before, both are stored empty, and the objects that existed are kept as
    they were.  Take any two such speed sections of one process: the first is
    constructed in any state, any calls of the module follow ([between]), the
    second is constructed, and any calls follow again ([after]).  Their list
    objects are distinct and so are their dict objects; each list holds exactly
    the ranges that the calls handed to it, and both dicts are still empty;
    and a range then added to either one by [add_track_range] is appended to
    its own list, while every other list (that of the other speed section
    among them), every dict and the label counter are unchanged.  The other
    fields are those given to the constructor. *)
Theorem default_containers_are_not_shared (st : State) (limit1 limit2 : float)
  (lbl1 lbl2 : option string) (routes1 routes2 : option (list string))
  (between after : list operation)
  (track : TrackRef) (begin end_ : Z) (directions : ApplicableDirection) :
  let r1 := SpeedSection_init limit1 None None lbl1 routes1 st in
  let s1 := r1.1 in
  let st1 := r1.2 in
  let st2 := perform_all between st1 in
  let r2 := SpeedSection_init limit2 None None lbl2 routes2 st2 in
  let s2 := r2.1 in
  let st3 := r2.2 in
  let st4 := perform_all after st3 in
  let range := mkRange track begin end_ directions in
  let ranges1 := appended (track_ranges s1) (between ++ after) in
  let ranges2 := appended (track_ranges s2) after in
  (track_ranges s1 = length (lists st) ∧ lists st1 = lists st ++ [[]]
   ∧ speed_limit_by_tag s1 = length (dicts st) ∧ dicts st1 = dicts st ++ [∅]
   ∧ lists st1 !! track_ranges s1 = Some []
   ∧ dicts st1 !! speed_limit_by_tag s1 = Some ∅)
  ∧ (track_ranges s2 = length (lists st2) ∧ lists st3 = lists st2 ++ [[]]
     ∧ speed_limit_by_tag s2 = length (dicts st2) ∧ dicts st3 = dicts st2 ++ [∅]
     ∧ lists st3 !! track_ranges s2 = Some []
     ∧ dicts st3 !! speed_limit_by_tag s2 = Some ∅)
  ∧ track_ranges s1 ≠ track_ranges s2
  ∧ speed_limit_by_tag s1 ≠ speed_limit_by_tag s2
  ∧ lists st4 !! track_ranges s1 = Some ranges1
  ∧ lists st4 !! track_ranges s2 = Some ranges2
  ∧ dicts st4 !! speed_limit_by_tag s1 = Some ∅
  ∧ dicts st4 !! speed_limit_by_tag s2 = Some ∅
  ∧ (∃ st5, add_track_range s1 track begin end_ directions st4 = Ok st5
       ∧ lists st5 = <[track_ranges s1 := ranges1 ++ [range]]> (lists st4)
       ∧ lists st5 !! track_ranges s1 = Some (ranges1 ++ [range])
       ∧ lists st5 !! track_ranges s2 = Some ranges2
       ∧ dicts st5 = dicts st4 ∧ _index st5 = _index st4)
  ∧ (∃ st5, add_track_range s2 track begin end_ directions st4 = Ok st5
       ∧ lists st5 = <[track_ranges s2 := ranges2 ++ [range]]> (lists st4)
       ∧ lists st5 !! track_ranges s2 = Some (ranges2 ++ [range])
       ∧ lists st5 !! track_ranges s1 = Some ranges1
       ∧ dicts st5 = dicts st4 ∧ _index st5 = _index st4)
  ∧ (speed_limit s1 = limit1 ∧ on_routes s1 = routes1
     ∧ speed_limit s2 = limit2 ∧ on_routes s2 = routes2).
Proof.
  intros r1 s1 st1 st2 r2 s2 st3 st4 range ranges1 ranges2.
  destruct (SpeedSection_init_fresh limit1 lbl1 routes1 st)
    as (Hl1 & Hd1 & HL1 & HD1).
  destruct (SpeedSection_init_fresh limit2 lbl2 routes2 st2)
    as (Hl2 & Hd2 & HL2 & HD2).
  cbn zeta in Hl1, Hd1, HL1, HD1, Hl2, Hd2, HL2, HD2.
  fold r1 in Hl1, Hd1, HL1, HD1. fold s1 in Hl1, Hd1. fold st1 in HL1, HD1.
  fold r2 in Hl2, Hd2, HL2, HD2. fold s2 in Hl2, Hd2. fold st3 in HL2, HD2.
  assert (E1 : lists st1 !! track_ranges s1 = Some []).
  { rewrite HL1, Hl1. by apply list_lookup_middle. }
  assert (D1 : dicts st1 !! speed_limit_by_tag s1 = Some ∅).
  { rewrite HD1, Hd1. by apply list_lookup_middle. }
  assert (E2 : lists st3 !! track_ranges s2 = Some []).
  { rewrite HL2, Hl2. by apply list_lookup_middle. }
  assert (D2 : dicts st3 !! speed_limit_by_tag s2 = Some ∅).
  { rewrite HD2, Hd2. by apply list_lookup_middle. }
  assert (Hne : track_ranges s1 ≠ track_ranges s2).
  { pose proof (perform_all_lists_length between st1) as Hle.
    fold st2 in Hle. rewrite HL1, length_app in Hle. simpl in Hle.
    rewrite Hl1, Hl2. lia. }
  assert (Hned : speed_limit_by_tag s1 ≠ speed_limit_by_tag s2).
  { pose proof (prefix_length _ _ (perform_all_dicts between st1)) as Hle.
    fold st2 in Hle. rewrite HD1, length_app in Hle. simpl in Hle.
    rewrite Hd1, Hd2. lia. }
  assert (R1 : lists st4 !! track_ranges s1 = Some ranges1).
  { unfold ranges1, appended. rewrite fmap_app, concat_app.
    apply (perform_all_lists between) in E1. fold st2 in E1.
    assert (E1' : lists st3 !! track_ranges s1
                  = Some ([] ++ appended (track_ranges s1) between)).
    { rewrite HL2. by apply lookup_app_l_Some. }
    apply (perform_all_lists after) in E1'. exact E1'. }
  assert (R2 : lists st4 !! track_ranges s2 = Some ranges2).
  { apply (perform_all_lists after) in E2. exact E2. }
  assert (T1 : dicts st4 !! speed_limit_by_tag s1 = Some ∅).
  { apply (prefix_lookup_Some (dicts st3)); [|apply perform_all_dicts].
    rewrite HD2. apply lookup_app_l_Some.
    by apply (prefix_lookup_Some (dicts st1)); [|apply perform_all_dicts]. }
  assert (T2 : dicts st4 !! speed_limit_by_tag s2 = Some ∅).
  { by apply (prefix_lookup_Some (dicts st3)); [|apply perform_all_dicts]. }
  split; [done|]. split; [done|]. split; [done|]. split; [done|].
  split; [done|]. split; [done|]. split; [done|]. split; [done|].
  split; [|split]; [| |unfold s1, s2, r1, r2, SpeedSection_init;
                         by destruct lbl1, lbl2].
  - eexists. split; [reflexivity|]. unfold list_extend. simpl.
    assert (Hi : alter (fun old => old ++ [range]) (track_ranges s1) (lists st4)
                 = <[track_ranges s1 := ranges1 ++ [range]]> (lists st4)).
    { rewrite list_insert_alter. apply list_alter_ext; [|done].
      intros x Hx. rewrite R1 in Hx. by injection Hx as <-. }
    split; [exact Hi|].
    rewrite list_lookup_alter, decide_True, R1 by done.
    by rewrite list_lookup_alter_ne, R2.
  - eexists. split; [reflexivity|]. unfold list_extend. simpl.
    assert (Hi : alter (fun old => old ++ [range]) (track_ranges s2) (lists st4)
                 = <[track_ranges s2 := ranges2 ++ [range]]> (lists st4)).
    { rewrite list_insert_alter. apply list_alter_ext; [|done].
      intros x Hx. rewrite R2 in Hx. by injection Hx as <-. }
    split; [exact Hi|].
    rewrite list_lookup_alter, decide_True, R2 by done.
    by rewrite list_lookup_alter_ne, R1.
Qed.

End speed_sections.

Section builder_speed_sections.
Import range_elements speed_section infra_builder.




End builder_speed_sections.

(** ** The order of detectors and signals *)

Section sorting.
Import infra_builder.
Context {A : Type} (key : A → Z).

Lemma insert_sorted_Permutation (x : A) (l : list A) :
  Permutation (insert_sorted key x l) (x :: l).
Proof.
  induction l as [|y l IH]; simpl; [done|].
  destruct (key x <=? key y)%Z; [done|].
  rewrite IH. apply perm_swap.
Qed.

Lemma sort_by_Permutation (l : list A) : Permutation (sort_by key l) l.
Proof.
  induction l as [|x l IH]; simpl; [done|].
  rewrite insert_sorted_Permutation. by constructor.
Qed.

Lemma insert_sorted_HdRel (a x : A) (l : list A) :
  key_le key a x → HdRel (key_le key) a l →
  HdRel (key_le key) a (insert_sorted key x l).
Proof.
  intros Hax Hal. destruct l as [|y l]; simpl; [by constructor|].
  destruct (key x <=? key y)%Z; constructor; [done|].
  by inversion Hal.
Qed.

Lemma insert_sorted_Sorted (x : A) (l : list A) :
  Sorted (key_le key) l → Sorted (key_le key) (insert_sorted key x l).
Proof.
  induction 1 as [|y l Hs IH Hhd]; simpl; [by repeat constructor|].
  destruct (key x <=? key y)%Z eqn:E.
  - apply Z.leb_le in E. by repeat constructor.
  - apply Z.leb_gt in E. constructor; [done|].
    apply insert_sorted_HdRel; [|done]. unfold key_le. lia.
Qed.

Lemma sort_by_Sorted (l : list A) : Sorted (key_le key) (sort_by key l).
Proof.
  induction l as [|x l IH]; simpl; [constructor|].
  by apply insert_sorted_Sorted.
Qed.

(** Among the elements of one key, insertion puts the new element first. *)
Lemma insert_sorted_filter (o : Z) (x : A) (l : list A) :
  filter (fun a => key a = o) (insert_sorted key x l)
  = filter (fun a => key a = o) (x :: l).
Proof.
  induction l as [|y l IH]; simpl; [done|].
  destruct (key x <=? key y)%Z eqn:E; [done|]. apply Z.leb_gt in E.
  rewrite (filter_cons _ y), IH, !(filter_cons _ x), !(filter_cons _ y).
  repeat case_decide; try done; lia.
Qed.

(** Stability: the elements of one key come out in the order they had. *)
Lemma sort_by_stable (o : Z) (l : list A) :
  filter (fun a => key a = o) (sort_by key l) = filter (fun a => key a = o) l.
Proof.
  induction l as [|x l IH]; simpl; [done|].
  by rewrite insert_sorted_filter, !filter_cons, IH.
Qed.

End sorting.

Section build_facts.
Import range_elements speed_section infra_builder.

Lemma first_duplicate_NoDup (labels : list string) :
  first_duplicate labels = None → NoDup labels.
Proof.
  induction labels as [|l labels IH]; simpl; [constructor|].
  destruct (existsb (String.eqb l) labels) eqn:E; [done|].
  intros H. constructor; [|by apply IH].
  intros Hin. apply list_elem_of_In in Hin.
  assert (existsb (String.eqb l) labels = true); [|congruence].
  apply existsb_exists. exists l. split; [done|]. apply String.eqb_refl.
Qed.

Lemma check_unique_NoDup (labels : list string) :
  check_unique labels = Ok tt → NoDup labels.
Proof.
  unfold check_unique. destruct (first_duplicate labels) eqn:E; [done|].
  intros _. by apply first_duplicate_NoDup.
Qed.

(** What a successful [build] tells: the builder was in the Building state,
    every check passed, and the document is the encoding of the builder. *)
Lemma build_Ok (b b' : Builder) (st : State) (doc : Document) :
  build b st = Ok (doc, b') →
  built b = false
  ∧ NoDup (track_label <$> track_sections b)
  ∧ check_offsets b = Ok tt
  ∧ check_ranges b st = Ok tt
  ∧ doc = encode b st
  ∧ built b' = true.
Proof.
  unfold build, check_building, check_identifiers.
  destruct (built b); [done|]. simpl.
  destruct (check_unique (track_label <$> track_sections b)) as [[]|] eqn:E1;
    [|done]. simpl.
  repeat (match goal with
          | |- context [mbind _ ?r] =>
              let x := fresh in destruct r as [x|]; [destruct x|done]; simpl
          end).
  intros [= <- <-]. repeat split; try done. by apply check_unique_NoDup.
Qed.

(** The entries of one track in a per-kind array of the document. *)
Lemma on_track_other {B} (lbl lbl' : string) (xs : list B) :
  lbl' ≠ lbl → on_track lbl (pair lbl' <$> xs) = [].
Proof.
  intros Hne. unfold on_track. induction xs as [|x xs IH]; [done|].
  rewrite fmap_cons, filter_cons_False by done. done.
Qed.

Lemma on_track_same {B} (lbl : string) (xs : list B) :
  on_track lbl (pair lbl <$> xs) = xs.
Proof.
  unfold on_track. induction xs as [|x xs IH]; [done|].
  rewrite fmap_cons, filter_cons_True by done. simpl. by f_equal.
Qed.

Lemma on_track_app {B} (lbl : string) (xs ys : list (string * B)) :
  on_track lbl (xs ++ ys) = on_track lbl xs ++ on_track lbl ys.
Proof. unfold on_track. by rewrite filter_app, fmap_app. Qed.

Lemma on_track_flat_map {B} (f : TrackSection → list B)
  (trs : list TrackSection) (t : nat) (tr : TrackSection) :
  NoDup (track_label <$> trs) →
  trs !! t = Some tr →
  on_track (track_label tr)
    (flat_map (fun tr' => pair (track_label tr') <$> f tr') trs)
  = f tr.
Proof.
  revert t. induction trs as [|tr0 trs IH]; intros t Hnd Ht; [done|].
  rewrite fmap_cons in Hnd. apply NoDup_cons in Hnd as [Hnotin Hnd].
  simpl. rewrite on_track_app. destruct t as [|t]; simpl in Ht.
  - injection Ht as ->. rewrite on_track_same.
    assert (on_track (track_label tr)
              (flat_map (fun tr' => pair (track_label tr') <$> f tr') trs) = [])
      as ->; [|by rewrite app_nil_r].
    clear IH Hnd. induction trs as [|tr1 trs IH]; [done|].
    simpl. rewrite on_track_app.
    rewrite fmap_cons in Hnotin. apply not_elem_of_cons in Hnotin as [Hne Hnotin].
    rewrite on_track_other by done. by apply IH.
  - rewrite on_track_other; [by apply (IH t)|].
    intros E. apply Hnotin. rewrite E.
    apply list_elem_of_fmap. exists tr. split; [done|].
    by apply list_elem_of_lookup_2 in Ht.
Qed.

(** Attaching appends: the lists of a track are in insertion order. *)
Lemma add_detector_appends t position lbl (b b' : Builder) (d : Detector) :
  add_detector t position lbl b = Ok (d, b') →
  ∃ tr, track_sections b !! t = Some tr
    ∧ detectors <$> track_sections b' !! t = Some (detectors tr ++ [d])
    ∧ detector_position d = position.
Proof.
  unfold add_detector, check_building, get_track.
  destruct (built b); [done|]. simpl.
  destruct (track_sections b !! t) as [tr|] eqn:Ht; [|done]. simpl.
  destruct (in_bounds position tr); [|done]. simpl.
  destruct (label_or_default _ _ _) as [l a]. intros [= <- <-].
  exists tr. split; [done|]. simpl.
  rewrite list_lookup_insert_eq by (by eapply lookup_lt_Some). done.
Qed.

Lemma add_signal_appends t position dir delim lbl sight (b b' : Builder)
  (r : SignalRef) :
  add_signal t position dir delim lbl sight b = Ok (r, b') →
  ∃ tr s, track_sections b !! t = Some tr
    ∧ signals <$> track_sections b' !! t = Some (signals tr ++ [s])
    ∧ signal_position s = position
    ∧ r = (t, length (signals tr)).
Proof.
  unfold add_signal, check_building, get_track.
  destruct (built b); [done|]. simpl.
  destruct (track_sections b !! t) as [tr|] eqn:Ht; [|done]. simpl.
  destruct (in_bounds position tr); [|done]. simpl.
  destruct (label_or_default _ _ _) as [l a]. intros [= <- <-].
  eexists tr, _. split; [done|]. simpl.
  rewrite list_lookup_insert_eq by (by eapply lookup_lt_Some). done.
Qed.

(** C5: in the document of a successful [build], the detectors of a track
    are sorted by ascending offset, are exactly the detectors attached to the
    track, and those at one offset are in the order in which they were
    attached; the same holds of its signals.  The buffer stops of the track,
    and the track sections, links, switches and speed sections of the
    document, are in the order in which they were added.  ([add_detector] and
    [add_signal] append, so the order of a track's list is the order of
    attachment.) *)
Theorem build_sorts_detectors_and_signals (b b' : Builder) (st : State)
  (doc : Document) (t : nat) (tr : TrackSection) :
  build b st = Ok (doc, b') →
  track_sections b !! t = Some tr →
  let ds := on_track (track_label tr) (doc_detectors doc) in
  let ss := on_track (track_label tr) (doc_signals doc) in
  (Sorted (key_le detector_position) ds
   ∧ Permutation ds (detectors tr)
   ∧ ∀ o, filter (fun d => detector_position d = o) ds
          = filter (fun d => detector_position d = o) (detectors tr))
  ∧ (Sorted (key_le signal_position) ss
     ∧ Permutation ss (signals tr)
     ∧ ∀ o, filter (fun s => signal_position s = o) ss
            = filter (fun s => signal_position s = o) (signals tr))
  ∧ on_track (track_label tr) (doc_buffer_stops doc) = buffer_stops tr
  ∧ doc_track_sections doc = encode_track <$> track_sections b
  ∧ doc_links doc = encode_link b <$> links b
  ∧ doc_switches doc = encode_switch b <$> switches b
  ∧ doc_speed_sections doc = to_rjs b st <$> speed_sections b.
Proof.
  intros Hb Ht ds ss.
  apply build_Ok in Hb as (_ & Hnd & _ & _ & -> & _).
  assert (Hds : ds = sort_by detector_position (detectors tr)).
  { subst ds. simpl. unfold track_detectors.
    by rewrite (on_track_flat_map
                  (fun tr' => sort_by detector_position (detectors tr')) _ t). }
  assert (Hss : ss = sort_by signal_position (signals tr)).
  { subst ss. simpl. unfold track_signals.
    by rewrite (on_track_flat_map
                  (fun tr' => sort_by signal_position (signals tr')) _ t). }
  rewrite Hds, Hss. split; [|split].
  - split; [apply sort_by_Sorted|]. split; [apply sort_by_Permutation|].
    intros o. apply sort_by_stable.
  - split; [apply sort_by_Sorted|]. split; [apply sort_by_Permutation|].
    intros o. apply sort_by_stable.
  - split; [|done]. simpl. unfold track_buffer_stops.
    by rewrite (on_track_flat_map buffer_stops _ t).
Qed.

(** A track with detectors and signals attached out of order, some at equal
    offsets. *)
Example build_sorts_detectors_and_signals_witness :
  let d := mkDetector in
  let sg l p := mkSignal l p START_TO_STOP false None [] in
  let tr := mkTrack "t" 1000 None None
              [d "a" 700%Z; d "b" 300%Z; d "c" 700%Z; d "e" 300%Z]
              [sg "s" 500%Z; sg "u" 0%Z; sg "v" 500%Z]
              [mkBufferStop "z" 1000] in
  let b := mkBuilder false [tr] [] [] [] (fun _ => 0%nat) in
  let doc := encode b initial_state in
  on_track "t" (doc_detectors doc)
  = [d "b" 300%Z; d "e" 300%Z; d "a" 700%Z; d "c" 700%Z]
  ∧ on_track "t" (doc_signals doc) = [sg "u" 0%Z; sg "s" 500%Z; sg "v" 500%Z]
  ∧ Sorted (key_le detector_position) (on_track "t" (doc_detectors doc))
  ∧ Permutation (on_track "t" (doc_detectors doc)) (detectors tr).
Proof.
  intros d sg tr b doc.
  pose proof (build_sorts_detectors_and_signals b
                (mkBuilder true [tr] [] [] [] (fun _ => 0%nat))
                initial_state doc 0 tr eq_refl eq_refl) as H.
  cbn zeta in H. destruct H as ((Hs & Hp & _) & _).
  split; [reflexivity|]. split; [reflexivity|]. split; [exact Hs|exact Hp].
Defined.

(** *** Track ranges of speed sections *)

Lemma check_ranges_Ok (b : Builder) (st : State) (s : SpeedSection)
  (r : ApplicableDirectionsTrackRange) :
  check_ranges b st = Ok tt →
  s ∈ speed_sections b →
  r ∈ get_track_ranges s st →
  ∃ tr, track_sections b !! range_elements.track r = Some tr
    ∧ (0 ≤ range_elements.begin r ≤ range_elements.end_ r)%Z
    ∧ (range_elements.end_ r ≤ track_length tr)%Z.
Proof.
  unfold check_ranges. intros Hc Hs Hr.
  destruct (forallb _ _) eqn:E; [|done].
  rewrite forallb_forall in E. apply list_elem_of_In, E in Hs.
  rewrite forallb_forall in Hs. apply list_elem_of_In, Hs in Hr.
  unfold range_ok in Hr.
  destruct (track_sections b !! range_elements.track r) as [tr|]; [|done].
  exists tr. split; [done|].
  apply andb_prop in Hr as [Hr H3]. apply andb_prop in Hr as [H1 H2].
  apply Z.leb_le in H1, H2, H3. lia.
Qed.

(** C3, as the code has it: [add_track_range] checks nothing.  Whatever the
    track and the bounds, it succeeds and appends the range, as given, at the
    end of the speed section's [track_ranges].  The bounds are checked by
    [build()]: every range of every speed section of a document that was
    built names a track section of the document, of length L say, and
    satisfies 0 <= begin <= end <= L. *)
Theorem add_track_range_unchecked_build_checked :
  (∀ (self : SpeedSection) (t : nat) (b e : Z) (dirs : ApplicableDirection)
     (st : State),
     (track_ranges self < length (lists st))%nat →
     ∃ st', add_track_range self t b e dirs st = Ok st'
       ∧ get_track_ranges self st'
         = get_track_ranges self st ++ [mkRange t b e dirs])
  ∧ (∀ (bld bld' : Builder) (st : State) (doc : Document)
       (s : RjsSpeedSection) (r : RjsRange),
       build bld st = Ok (doc, bld') →
       s ∈ doc_speed_sections doc →
       r ∈ rjs_speed_track_ranges s →
       ∃ tr, tr ∈ doc_track_sections doc
         ∧ rjs_track_id tr = rjs_range_track r
         ∧ (0 ≤ rjs_range_begin r ≤ rjs_range_end r)%Z
         ∧ (rjs_range_end r ≤ rjs_track_length tr)%Z).
Proof.
  split.
  - intros self t b e dirs st Hlt. eexists. split; [reflexivity|].
    by apply get_track_ranges_extend_same.
  - intros bld bld' st doc s r Hb Hs Hr.
    apply build_Ok in Hb as (_ & _ & _ & Hc & -> & _). simpl in Hs.
    apply list_elem_of_fmap in Hs as (s0 & -> & Hs0). simpl in Hr.
    apply list_elem_of_fmap in Hr as (r0 & -> & Hr0).
    destruct (check_ranges_Ok _ _ _ _ Hc Hs0 Hr0) as (tr & Ht & Hle1 & Hle2).
    exists (encode_track tr). simpl. split.
    { apply list_elem_of_fmap. exists tr. split; [done|].
      by apply list_elem_of_lookup_2 in Ht. }
    unfold track_id. rewrite Ht. done.
Qed.

Lemma add_track_range_unchecked_build_checked_witness :
  let s := mkSpeedSection 30 0 0 "speed_section.0" None in
  let st := mkState 1 [[]] [∅] in
  let tr := mkTrack "t_takeover" 2100 None None [] [] [] in
  let bld := mkBuilder false [tr] [] [] [s] (fun _ => 0%nat) in
  (∃ st', add_track_range s 0 0 2100 BOTH st = Ok st'
     ∧ get_track_ranges s st'
       = get_track_ranges s st ++ [mkRange 0 0 2100 BOTH])
  ∧ (∃ tr', tr' ∈ doc_track_sections
                    (encode bld (mkState 1 [[mkRange 0 0 2100 BOTH]] [∅]))
       ∧ rjs_track_id tr' = "t_takeover"
       ∧ (0 ≤ 0 ≤ 2100)%Z ∧ (2100 ≤ rjs_track_length tr')%Z).
Proof.
  intros s st tr bld.
  destruct add_track_range_unchecked_build_checked as [H1 H2]. split.
  - apply (H1 s 0%nat 0%Z 2100%Z BOTH st). simpl. lia.
  - apply (H2 bld (mkBuilder true [tr] [] [] [s] (fun _ => 0%nat))
             (mkState 1 [[mkRange 0 0 2100 BOTH]] [∅])
             (encode bld (mkState 1 [[mkRange 0 0 2100 BOTH]] [∅]))
             (mkRjsSpeedSection "speed_section.0" 30 ∅
                [mkRjsRange "t_takeover" 0 2100 BOTH] None)
             (mkRjsRange "t_takeover" 0 2100 BOTH)).
    + reflexivity.
    + apply list_elem_of_here.
    + apply list_elem_of_here.
Defined.

(** C3 as stated fails: on the track of length 2100 of takeover.py, a range
    whose end (3) precedes its begin (5), and a range from -1 to 3000, are
    both accepted by [add_track_range] and stored as given. *)
Lemma add_track_range_accepts_any_bounds :
  (∃ bld st s t tr,
     takeover.speed_limit_on_t_takeover 5 3 initial_state = Ok (bld, st, s, t)
     ∧ track_sections bld !! t = Some tr ∧ track_length tr = 2100%Z
     ∧ get_track_ranges s st = [mkRange t 5 3 BOTH])
  ∧ (∃ bld st s t tr,
       takeover.speed_limit_on_t_takeover (-1) 3000 initial_state
       = Ok (bld, st, s, t)
       ∧ track_sections bld !! t = Some tr ∧ track_length tr = 2100%Z
       ∧ get_track_ranges s st = [mkRange t (-1) 3000 BOTH])
  ∧ ∀ s t st, add_track_range s t 5 3 BOTH st ≠ Err OutOfBoundsOffset.
Proof.
  split; [|split].
  - eexists _, _, _, _, _. split; [reflexivity|]. by split.
  - eexists _, _, _, _, _. split; [reflexivity|]. by split.
  - done.
Qed.

End build_facts.

(** ** The scenarios *)

Section scenarios.
Import infra_builder infra_editor.

(** C7: the ring of circle_infra.py is built, and its document has 4 track
    sections (of length 200), 1 link, 2 switches and 8 endpoints, each of
    them consumed by exactly one link end or switch port; none dangles. *)
Theorem circle_infra_document (st : speed_section.State) :
  ∃ doc, circle_infra._build_scenario_data st = Ok doc
    ∧ length (doc_track_sections doc) = 4%nat
    ∧ Forall (fun t => rjs_track_length t = 200%Z) (doc_track_sections doc)
    ∧ length (doc_links doc) = 1%nat
    ∧ length (doc_switches doc) = 2%nat
    ∧ length (doc_endpoints doc) = 8%nat
    ∧ NoDup (doc_endpoints doc)
    ∧ Forall (fun e => consumers doc e = 1%nat) (doc_endpoints doc)
    ∧ dangling_endpoints doc = [].
Proof.
  eexists. split; [vm_compute; reflexivity|].
  split; [reflexivity|]. split; [by repeat constructor|].
  split; [reflexivity|]. split; [reflexivity|]. split; [reflexivity|].
  split; [|split; [by repeat constructor|reflexivity]].
  by apply (bool_decide_unpack _).
Qed.

(** C6, as the code has it: the chain of one_line.py is built, and its
    document has 10 track sections of length 1000, 9 links, no switch, 10
    detectors (the script attaches one per track, at offset 500) and 20
    signals (two per track, at the detector's offset); every signal is a
    route delimiter and has exactly one logical signal, of kind BAL, with the
    setting Nf = "true". *)
Theorem one_line_document (st : speed_section.State) :
  ∃ doc, one_line._build_scenario_data st = Ok doc
    ∧ length (doc_track_sections doc) = 10%nat
    ∧ Forall (fun t => rjs_track_length t = 1000%Z) (doc_track_sections doc)
    ∧ length (doc_links doc) = 9%nat
    ∧ length (doc_switches doc) = 0%nat
    ∧ length (doc_detectors doc) = 10%nat
    ∧ length (doc_signals doc) = 20%nat
    ∧ Forall (fun t => length (on_track (rjs_track_id t) (doc_detectors doc)) = 1%nat
                       ∧ length (on_track (rjs_track_id t) (doc_signals doc)) = 2%nat)
        (doc_track_sections doc)
    ∧ Forall (fun d => detector_position d.2 = 500%Z) (doc_detectors doc)
    ∧ Forall (fun s => signal_position s.2 = 500%Z
                       ∧ is_route_delimiter s.2 = true
                       ∧ logical_signals s.2
                         = [mkLogicalSignal bal [("Nf", "true")] [] []])
        (doc_signals doc).
Proof.
  eexists. split; [vm_compute; reflexivity|].
  split; [reflexivity|]. split; [by repeat constructor|].
  split; [reflexivity|]. split; [reflexivity|]. split; [reflexivity|].
  split; [reflexivity|]. split; [by repeat constructor|].
  split; by repeat constructor.
Qed.

(** C6 as stated fails: the document of one_line.py has 10 detectors, not
    20. *)
Lemma one_line_has_ten_detectors :
  ∃ doc, one_line._build_scenario_data speed_section.initial_state = Ok doc
    ∧ length (doc_detectors doc) = 10%nat
    ∧ length (doc_detectors doc) ≠ 20%nat.
Proof.
  eexists. split; [vm_compute; reflexivity|]. split; [reflexivity|].
  vm_compute. discriminate.
Qed.

End scenarios.

(** ** Logical signals *)

Section logical_signals.
Import infra_editor.
Variable Identifier_valid : string → bool.

#[local] Abbreviation validate := (infra_editor.validate Identifier_valid).

Lemma validate_fields_names val d fields out :
  validate_fields val d fields = Ok out → out.*1 = fields.*1.
Proof.
  revert out. induction fields as [|[name [ty dflt]] fields IH]; intros out.
  - by intros [= <-].
  - simpl. destruct (match dict_get name d with Some _ => _ | None => _ end);
      [|done]. simpl.
    destruct (validate_fields val d fields) as [rest|]; [|done]. simpl.
    intros [= <-]. simpl. f_equal. by apply IH.
Qed.

(** A field of a validated model holds the validated input of that name or,
    if the input has none, the field's default. *)
Lemma validate_fields_lookup val d fields out name ty dflt :
  validate_fields val d fields = Ok out →
  get_field name fields = Some (ty, dflt) →
  ∃ x, dict_get name out = Some x
    ∧ match dict_get name d with
      | Some v => val ty v = Ok x
      | None => default_value dflt = Some x
      end.
Proof.
  revert out. induction fields as [|[n [ty0 dflt0]] fields IH]; intros out;
    [done|].
  simpl.
  destruct (match dict_get n d with Some _ => _ | None => _ end) as [x|] eqn:Ex;
    [|done]. simpl.
  destruct (validate_fields val d fields) as [rest|]; [|done]. simpl.
  intros [= <-]. simpl. destruct (String.eqb n name) eqn:En.
  - apply String.eqb_eq in En as ->. intros [= -> ->]. exists x.
    split; [done|].
    destruct (dict_get name d); [done|].
    destruct (default_value dflt); by simplify_eq.
  - intros Hg. by apply IH.
Qed.

(** A required field that the input lacks makes the model invalid. *)
Lemma validate_fields_required val d fields name ty :
  get_field name fields = Some (ty, Required) →
  dict_get name d = None →
  is_ok (validate_fields val d fields) = false.
Proof.
  induction fields as [|[n [ty0 dflt0]] fields IH]; [done|]. simpl.
  destruct (String.eqb n name) eqn:En.
  - apply String.eqb_eq in En as ->. intros [= -> ->] ->. done.
  - intros Hg Hd. specialize (IH Hg Hd).
    destruct (match dict_get n d with Some _ => _ | None => _ end); [|done].
    simpl. by destruct (validate_fields val d fields).
Qed.

Lemma system_model_fields (k : SignalingSystem) :
  system_model k = TModel (model_fields (system_model k)).
Proof. by destruct k. Qed.

Lemma validate_model fields v :
  validate (TModel fields) v
  = match v with
    | VDict d => d' ← validate_fields validate d fields; Ok (VDict d')
    | _ => Err (ValidationError "model_type")
    end.
Proof. done. Qed.

(** The union dispatches on the tag: to the model of the kind the tag names,
    if it names one. *)
Lemma validate_LimitedLogicalSignal d tag :
  dict_get "signaling_system" d = Some (VStr tag) →
  validate LimitedLogicalSignal (VDict d)
  = match SignalingSystem_of_value tag with
    | Some k => validate (system_model k) (VDict d)
    | None => Err (ValidationError ("union_tag_invalid: " +:+ tag))
    end.
Proof.
  intros Hd. unfold LimitedLogicalSignal.
  change (validate (TUnion ?disc ?vs) (VDict d))
    with (match dict_get disc d with
          | Some (VStr tag) => validate_tagged validate disc tag (VDict d) vs
          | Some _ => Err (ValidationError "union_tag_invalid")
          | None => Err (ValidationError "union_tag_not_found")
          end).
  rewrite Hd. unfold validate_tagged, SignalingSystem_of_value.
  change (has_tag "signaling_system" tag BalSystem.model)
    with (String.eqb "BAL" tag).
  change (has_tag "signaling_system" tag BaprSystem.model)
    with (String.eqb "BAPR" tag).
  change (has_tag "signaling_system" tag Tvm300System.model)
    with (String.eqb "TVM300" tag).
  change (has_tag "signaling_system" tag Tvm430System.model)
    with (String.eqb "TVM430" tag).
  change (has_tag "signaling_system" tag EtcsLevel2System.model)
    with (String.eqb "ETCS_LEVEL2" tag).
  cbn [find SignalingSystem_members SignalingSystem_value].
  destruct (String.eqb "BAL" tag); [done|].
  destruct (String.eqb "BAPR" tag); [done|].
  destruct (String.eqb "TVM300" tag); [done|].
  destruct (String.eqb "TVM430" tag); [done|].
  by destruct (String.eqb "ETCS_LEVEL2" tag).
Qed.

Lemma SignalingSystem_of_value_Some tag k :
  SignalingSystem_of_value tag = Some k → tag = SignalingSystem_value k.
Proof.
  unfold SignalingSystem_of_value. intros H.
  apply find_some in H as [_ H]. by apply String.eqb_eq in H.
Qed.

Lemma SignalingSystem_of_value_None tag :
  (∀ k, SignalingSystem_value k ≠ tag) → SignalingSystem_of_value tag = None.
Proof.
  intros H. destruct (SignalingSystem_of_value tag) as [k|] eqn:E; [|done].
  apply SignalingSystem_of_value_Some in E. by destruct (H k).
Qed.

Lemma validate_union discriminator variants v :
  validate (TUnion discriminator variants) v
  = match v with
    | VDict d =>
        match dict_get discriminator d with
        | Some (VStr tag) =>
            validate_tagged validate discriminator tag v variants
        | Some _ => Err (ValidationError "union_tag_invalid")
        | None => Err (ValidationError "union_tag_not_found")
        end
    | _ => Err (ValidationError "model_attributes_type")
    end.
Proof. by destruct v. Qed.

Lemma signaling_system_field (k : SignalingSystem) :
  get_field "signaling_system" (model_fields (system_model k))
  = Some (TLiteral (SignalingSystem_value k),
          Default (VStr (SignalingSystem_value k))).
Proof. by destruct k. Qed.

(** A validated model of a kind: a dict with exactly the fields of the
    model. *)
Lemma validate_system_model k d out :
  validate (system_model k) (VDict d) = Ok out →
  ∃ d', out = VDict d'
    ∧ validate_fields validate d (model_fields (system_model k)) = Ok d'
    ∧ d'.*1 = field_names (system_model k).
Proof.
  rewrite system_model_fields, validate_model. cbn [model_fields].
  destruct (validate_fields _ _ _) as [d'|] eqn:E; [|done].
  intros [= <-]. exists d'. split; [done|]. split; [done|].
  by apply validate_fields_names in E.
Qed.

(** C4: validation as a [LimitedLogicalSignal] rejects every input whose
    "signaling_system" is a string other than the five kinds; and an input
    that it accepts is a dict whose "signaling_system" is one of the five
    kinds, the result being the validated model of that kind, with that kind
    in its "signaling_system" field. *)
Theorem LimitedLogicalSignal_kinds :
  (∀ d kind,
     dict_get "signaling_system" d = Some (VStr kind) →
     (∀ k, SignalingSystem_value k ≠ kind) →
     ∃ msg, validate LimitedLogicalSignal (VDict d) = Err (ValidationError msg))
  ∧ (∀ v out,
       validate LimitedLogicalSignal v = Ok out →
       ∃ k d d',
         v = VDict d
         ∧ dict_get "signaling_system" d = Some (VStr (SignalingSystem_value k))
         ∧ validate (system_model k) v = Ok out
         ∧ out = VDict d'
         ∧ dict_get "signaling_system" d' = Some (VStr (SignalingSystem_value k))).
Proof.
  split.
  - intros d kind Hd Hk. rewrite (validate_LimitedLogicalSignal _ _ Hd).
    rewrite SignalingSystem_of_value_None by done. by eexists.
  - intros v out Hv.
    assert (∃ d tag, v = VDict d
                     ∧ dict_get "signaling_system" d = Some (VStr tag))
      as (d & tag & -> & Hd).
    { unfold LimitedLogicalSignal in Hv. rewrite validate_union in Hv.
      destruct v as [| | | | |d]; try done.
      destruct (dict_get _ d) as [[]|] eqn:Hd; try done. by eexists _, _. }
    rewrite (validate_LimitedLogicalSignal _ _ Hd) in Hv.
    destruct (SignalingSystem_of_value tag) as [k|] eqn:Hk; [|done].
    apply SignalingSystem_of_value_Some in Hk as ->.
    destruct (validate_system_model _ _ _ Hv) as (d' & -> & Hf & _).
    destruct (validate_fields_lookup _ _ _ _ _ _ _ Hf (signaling_system_field k))
      as (x & Hx & Hval).
    rewrite Hd in Hval. simpl in Hval. rewrite String.eqb_refl in Hval.
    injection Hval as <-. by exists k, d, d'.
Qed.

Lemma conditional_parameters_field (k : SignalingSystem) :
  ∃ ty, get_field "conditional_parameters" (model_fields (system_model k))
        = Some (TList ty, DefaultFactoryList).
Proof. destruct k; by eexists. Qed.

Lemma parameters_field (k : SignalingSystem) :
  ∃ ty, get_field (match k with
                   | bapr => "parameters"
                   | _ => "default_parameters"
                   end) (model_fields (system_model k))
        = Some (ty, Required).
Proof. destruct k; by eexists. Qed.

(** C10: the BAPR model has a field "parameters" and no field
    "default_parameters"; each of the four other models has a field
    "default_parameters" and no field "parameters".  In all five, the field
    "signaling_system" is the literal of the kind's own name and defaults to
    it, and "conditional_parameters" is a list that defaults to the empty
    list.  Accordingly a validated logical signal of a kind has exactly the
    fields of its model; its "signaling_system" is the kind's name and its
    "conditional_parameters" the empty list when the input leaves them out;
    and the input has the (required) parameter field under the name its
    model gives it. *)
Theorem logical_signal_fields_differ :
  ("parameters" ∈ field_names BaprSystem.model
   ∧ "default_parameters" ∉ field_names BaprSystem.model)
  ∧ (∀ k, k ≠ bapr →
       "default_parameters" ∈ field_names (system_model k)
       ∧ "parameters" ∉ field_names (system_model k))
  ∧ (∀ k,
       get_field "signaling_system" (model_fields (system_model k))
       = Some (TLiteral (SignalingSystem_value k),
               Default (VStr (SignalingSystem_value k)))
       ∧ ∃ ty, get_field "conditional_parameters" (model_fields (system_model k))
               = Some (TList ty, DefaultFactoryList))
  ∧ (∀ k d out,
       validate (system_model k) (VDict d) = Ok out →
       ∃ d', out = VDict d'
         ∧ d'.*1 = field_names (system_model k)
         ∧ (dict_get "signaling_system" d = None →
            dict_get "signaling_system" d'
            = Some (VStr (SignalingSystem_value k)))
         ∧ (dict_get "conditional_parameters" d = None →
            dict_get "conditional_parameters" d' = Some (VList []))
         ∧ is_Some (dict_get (match k with
                              | bapr => "parameters"
                              | _ => "default_parameters"
                              end) d)).
Proof.
  split; [|split; [|split]].
  - split; by apply (bool_decide_unpack _).
  - intros k Hk. destruct k; try done; split; by apply (bool_decide_unpack _).
  - intros k. split; [apply signaling_system_field|].
    apply conditional_parameters_field.
  - intros k d out Hv.
    destruct (validate_system_model _ _ _ Hv) as (d' & -> & Hf & Hn).
    exists d'. split; [done|]. split; [done|]. split; [|split].
    + intros Hd.
      destruct (validate_fields_lookup _ _ _ _ _ _ _ Hf (signaling_system_field k))
        as (x & Hx & Hval).
      rewrite Hd in Hval. by injection Hval as <-.
    + intros Hd. destruct (conditional_parameters_field k) as [ty Hty].
      destruct (validate_fields_lookup _ _ _ _ _ _ _ Hf Hty) as (x & Hx & Hval).
      rewrite Hd in Hval. by injection Hval as <-.
    + destruct (parameters_field k) as [ty Hty].
      destruct (dict_get _ d) eqn:Hd; [done|].
      pose proof (validate_fields_required validate _ _ _ _ Hty Hd) as Hr.
      by rewrite Hf in Hr.
Qed.

End logical_signals.

(** A BAL signal as one_line.py makes it, a BAPR signal, and a signal of a
    kind that is not among the five. *)
Example LimitedLogicalSignal_kinds_witness :
  let idv := fun _ : string => true in
  let kvb := [("signaling_system", infra_editor.VStr "KVB");
              ("settings", infra_editor.VDict [("Nf", infra_editor.VStr "true")])] in
  let bal := [("signaling_system", infra_editor.VStr "BAL");
              ("settings", infra_editor.VDict [("Nf", infra_editor.VStr "true")]);
              ("default_parameters",
               infra_editor.VDict [("jaune_cli", infra_editor.VStr "false")])] in
  (∃ msg, infra_editor.validate idv infra_editor.LimitedLogicalSignal
            (infra_editor.VDict kvb) = Err (ValidationError msg))
  ∧ (∃ k d d' out,
       infra_editor.validate idv infra_editor.LimitedLogicalSignal
         (infra_editor.VDict bal) = Ok out
       ∧ infra_editor.VDict bal = infra_editor.VDict d
       ∧ out = infra_editor.VDict d'
       ∧ infra_editor.dict_get "signaling_system" d'
         = Some (infra_editor.VStr (infra_editor.SignalingSystem_value k))).
Proof.
  intros idv kvb bal.
  destruct (LimitedLogicalSignal_kinds idv) as [H1 H2]. split.
  - apply (H1 kvb "KVB"); [reflexivity|]. by intros [].
  - destruct (H2 (infra_editor.VDict bal)
                (infra_editor.VDict
                   [("next_signaling_systems", infra_editor.VList []);
                    ("signaling_system", infra_editor.VStr "BAL");
                    ("settings",
                     infra_editor.VDict [("Nf", infra_editor.VStr "true")]);
                    ("default_parameters",
                     infra_editor.VDict
                       [("jaune_cli", infra_editor.VStr "false")]);
                    ("conditional_parameters", infra_editor.VList [])])
                eq_refl)
      as (k & d & d' & Hv & _ & _ & Hout & Hk).
    by eexists k, d, d', _.
Defined.

Example logical_signal_fields_differ_witness :
  let idv := fun _ : string => true in
  let bapr_input :=
    [("settings", infra_editor.VDict [("Nf", infra_editor.VStr "true");
                                      ("distant", infra_editor.VStr "false")]);
     ("parameters", infra_editor.VDict [])] in
  "default_parameters" ∈ infra_editor.field_names
                            (infra_editor.system_model infra_editor.tvm300)
  ∧ ∃ d', infra_editor.validate idv infra_editor.BaprSystem.model
            (infra_editor.VDict bapr_input) = Ok (infra_editor.VDict d')
      ∧ infra_editor.dict_get "signaling_system" d'
        = Some (infra_editor.VStr "BAPR")
      ∧ infra_editor.dict_get "conditional_parameters" d'
        = Some (infra_editor.VList [])
      ∧ is_Some (infra_editor.dict_get "parameters" bapr_input).
Proof.
  intros idv bapr_input.
  destruct (logical_signal_fields_differ idv) as (_ & H2 & _ & H4). split.
  - by apply (H2 infra_editor.tvm300).
  - destruct (H4 infra_editor.bapr bapr_input _ eq_refl)
      as (d' & Hout & _ & Hs & Hc & Hp).
    injection Hout as <-. eexists. split; [reflexivity|].
    split; [by apply Hs|]. split; [by apply Hc|]. exact Hp.
Defined.

(** * Further properties of the code *)

(** ** speed_section.py: ranges and labels *)

Section speed_section_more.
Import range_elements speed_section.

Lemma list_extend_extend l xs ys (st : State) :
  list_extend l ys (list_extend l xs st) = list_extend l (xs ++ ys) st.
Proof.
  unfold list_extend, set_lists. simpl. f_equal.
  apply list_eq. intros i. rewrite !list_lookup_alter.
  case_decide; [|done]. rewrite decide_True by done.
  destruct (lists st !! l) as [old|]; simpl; [|done].
  by rewrite <- (assoc_L (++)).
Qed.

(** [add_applicable_track_ranges] appends the given ranges, in the order
    given, at the end of the speed section's own list, and touches nothing
    else: not the lists of speed sections that hold another list object, not
    the dicts, not the label counter.  Two calls amount to one call with the
    concatenation, and [add_track_range] is the call with one range. *)
Theorem add_applicable_track_ranges_appends (self : SpeedSection)
  (xs ys : list ApplicableDirectionsTrackRange) (st : State) :
  (track_ranges self < length (lists st))%nat →
  ∃ st1,
    add_applicable_track_ranges self xs st = Ok st1
    ∧ get_track_ranges self st1 = get_track_ranges self st ++ xs
    ∧ (∀ other, track_ranges other ≠ track_ranges self →
         get_track_ranges other st1 = get_track_ranges other st)
    ∧ dicts st1 = dicts st ∧ _index st1 = _index st
    ∧ add_applicable_track_ranges self ys st1
      = add_applicable_track_ranges self (xs ++ ys) st
    ∧ ∀ t b e dirs,
        add_track_range self t b e dirs st
        = add_applicable_track_ranges self [mkRange t b e dirs] st.
Proof.
  intros Hlt. eexists. split; [reflexivity|].
  split; [by apply get_track_ranges_extend_same|].
  split; [intros other Hne; by apply get_track_ranges_extend_other|].
  destruct (list_extend_frame (track_ranges self) xs st) as (Hd & Hi & _).
  split; [done|]. split; [done|]. split; [|done].
  unfold add_applicable_track_ranges. by rewrite list_extend_extend.
Qed.

Lemma add_applicable_track_ranges_appends_witness :
  let r1 := mkRange 0 0 100 BOTH in
  let r2 := mkRange 0 100 200 START_TO_STOP in
  let r3 := mkRange 1 0 50 STOP_TO_START in
  let s := mkSpeedSection 30 0 1 "speed_section.0" None in
  let st := mkState 1 [[]; [r1]] [∅] in
  ∃ st1,
    add_applicable_track_ranges s [r2; r3] st = Ok st1
    ∧ get_track_ranges s st1 = [r1; r2; r3].
Proof.
  intros r1 r2 r3 s st.
  destruct (add_applicable_track_ranges_appends s [r2; r3] [] st)
    as (st1 & H1 & H2 & _); [simpl; lia|].
  exists st1. split; [exact H1|exact H2].
Defined.

(** A list passed explicitly as [track_ranges] is stored, not copied: two
    speed sections constructed with the same list object share it, and a
    range added through one of them is a range of the other. *)
Theorem explicit_track_ranges_are_shared (st : State) (l : nat)
  (limit1 limit2 : float) (by_tag1 by_tag2 : option nat)
  (lbl1 lbl2 : option string) (routes1 routes2 : option (list string))
  (t : nat) (b e : Z) (dirs : ApplicableDirection) :
  (l < length (lists st))%nat →
  let r1 := SpeedSection_init limit1 by_tag1 (Some l) lbl1 routes1 st in
  let r2 := SpeedSection_init limit2 by_tag2 (Some l) lbl2 routes2 r1.2 in
  track_ranges r1.1 = l ∧ track_ranges r2.1 = l
  ∧ lists r2.2 = lists st
  ∧ ∃ st3,
      add_track_range r1.1 t b e dirs r2.2 = Ok st3
      ∧ get_track_ranges r1.1 st3
        = default [] (lists st !! l) ++ [mkRange t b e dirs]
      ∧ get_track_ranges r2.1 st3 = get_track_ranges r1.1 st3.
Proof.
  intros Hlt r1 r2.
  assert (H1 : track_ranges r1.1 = l ∧ lists r1.2 = lists st).
  { subst r1. unfold SpeedSection_init. by destruct by_tag1, lbl1. }
  assert (H2 : track_ranges r2.1 = l ∧ lists r2.2 = lists r1.2).
  { subst r2. unfold SpeedSection_init. by destruct by_tag2, lbl2. }
  destruct H1 as [E1 L1], H2 as [E2 L2].
  split; [done|]. split; [done|]. split; [congruence|].
  eexists. split; [reflexivity|].
  assert (Hlt' : (track_ranges r1.1 < length (lists r2.2))%nat)
    by (rewrite E1, L2, L1; done).
  split.
  - rewrite get_track_ranges_extend_same by done.
    unfold get_track_ranges. by rewrite E1, L2, L1.
  - unfold get_track_ranges. by rewrite E1, E2.
Qed.

Lemma explicit_track_ranges_are_shared_witness :
  let st := mkState 0 [[]] [] in
  let r1 := SpeedSection_init 30 None (Some 0%nat) None None st in
  let r2 := SpeedSection_init 20 None (Some 0%nat) None None r1.2 in
  ∃ st3,
    add_track_range r1.1 0 0 100 BOTH r2.2 = Ok st3
    ∧ get_track_ranges r2.1 st3 = [mkRange 0 0 100 BOTH].
Proof.
  intros st r1 r2.
  destruct (explicit_track_ranges_are_shared st 0 30 20 None None None None
              None None 0 0 100 BOTH) as (_ & _ & _ & st3 & H1 & H2 & H3);
    [simpl; lia|].
  exists st3. split; [exact H1|]. exact (eq_trans H3 H2).
Defined.

(** An explicit label is taken as it is: it does not move the counter and is
    not compared with the labels already given.  So a speed section
    explicitly labelled with the next default label and the speed section
    created next without a label have the same label. *)
Theorem explicit_label_can_collide (st : State) (limit1 limit2 : float)
  (lbl : string) :
  let r := SpeedSection_init limit1 None None (Some lbl) None st in
  label r.1 = lbl ∧ _index r.2 = _index st
  ∧ (lbl = "speed_section." +:+ pretty (_index st) →
     label (SpeedSection_init limit2 None None None None r.2).1 = label r.1).
Proof.
  intros r.
  destruct (SpeedSection_init_label limit1 None None (Some lbl) None st)
    as [Hl Hi].
  destruct (SpeedSection_init_label limit2 None None None None r.2)
    as [Hl2 _].
  cbn zeta in *. fold r in Hl, Hi. split; [done|]. split; [done|].
  intros ->. rewrite Hl2, Hl, Hi. done.
Qed.

Lemma explicit_label_can_collide_witness :
  let r := SpeedSection_init 30 None None (Some "speed_section.0") None
             initial_state in
  label (SpeedSection_init 20 None None None None r.2).1 = "speed_section.0".
Proof.
  intros r.
  destruct (explicit_label_can_collide initial_state 30 20 "speed_section.0")
    as (Hl & _ & H).
  exact (eq_trans (H eq_refl) Hl).
Defined.

End speed_section_more.

(** ** infra_editor.py: validating twice *)

Section revalidation.
Import infra_editor.
Variable Identifier_valid : string → bool.

#[local] Abbreviation validate := (infra_editor.validate Identifier_valid).
#[local] Abbreviation well_formed := (infra_editor.well_formed Identifier_valid).

(** Induction on schemas, through the fields of models and the members of
    unions. *)
Lemma schema_nested_ind (P : schema → Prop) :
  (∀ values, P (TStrEnum values)) →
  (∀ s, P (TLiteral s)) →
  P TIdentifier →
  (∀ elem, P elem → P (TList elem)) →
  (∀ fields, Forall (fun f => P f.2.1) fields → P (TModel fields)) →
  (∀ disc variants, Forall P variants → P (TUnion disc variants)) →
  ∀ t, P t.
Proof.
  intros HE HL HI HLi HM HU. fix IH 1. intros [values|s| |elem|fields|disc vs].
  - apply HE.
  - apply HL.
  - apply HI.
  - apply HLi, IH.
  - apply HM. induction fields as [|[n [ty dflt]] fields IHf]; constructor.
    + apply IH.
    + apply IHf.
  - apply HU. induction vs as [|t vs IHv]; constructor.
    + apply IH.
    + apply IHv.
Qed.

Lemma well_formed_model fields :
  well_formed (TModel fields) →
  NoDup fields.*1
  ∧ Forall (fun f => well_formed f.2.1
                     ∧ ∀ dv, default_value f.2.2 = Some dv →
                             validate f.2.1 dv = Ok dv) fields.
Proof.
  intros [Hnd Hgo]. split; [done|]. clear Hnd.
  induction fields as [|[n [ty dflt]] fields IH]; [constructor|].
  destruct Hgo as [Hf Hgo]. constructor; [done|by apply IH].
Qed.

Lemma well_formed_union disc variants :
  well_formed (TUnion disc variants) → Forall well_formed variants.
Proof.
  simpl. induction variants as [|t vs IH]; [constructor|].
  intros [Ht Hgo]. constructor; [done|by apply IH].
Qed.

Lemma validate_items_again (val : value → result value) l l' :
  Forall (fun x => ∀ y, val x = Ok y → val y = Ok y) l →
  validate_items val l = Ok l' → validate_items val l' = Ok l'.
Proof.
  intros Hall. revert l'. induction Hall as [|x l Hx Hall IH]; intros l'.
  - by intros [= <-].
  - simpl. destruct (val x) as [y|] eqn:Ey; [|done]. simpl.
    destruct (validate_items val l) as [ys|]; [|done]. simpl.
    intros [= <-]. simpl. rewrite (Hx _ eq_refl). simpl.
    by rewrite (IH _ eq_refl).
Qed.

Lemma dict_get_NoDup (d : list (string * value)) n x :
  NoDup d.*1 → (n, x) ∈ d → dict_get n d = Some x.
Proof.
  induction d as [|[k v] d IH]; intros Hnd Hin; [by apply elem_of_nil in Hin|].
  rewrite fmap_cons in Hnd. apply NoDup_cons in Hnd as [Hk Hnd]. simpl.
  apply elem_of_cons in Hin as [[= -> ->]|Hin].
  - by rewrite String.eqb_refl.
  - destruct (String.eqb k n) eqn:E; [|by apply IH].
    apply String.eqb_eq in E as ->. destruct Hk.
    apply list_elem_of_fmap. by exists (n, x).
Qed.

(** Validating the fields against a dict [D] that holds every value of a
    first result gives that result again. *)
Lemma validate_fields_again val d D fields out :
  Forall (fun f => (∀ v y, val f.2.1 v = Ok y → val f.2.1 y = Ok y)
                   ∧ ∀ dv, default_value f.2.2 = Some dv →
                           val f.2.1 dv = Ok dv) fields →
  validate_fields val d fields = Ok out →
  (∀ n x, (n, x) ∈ out → dict_get n D = Some x) →
  validate_fields val D fields = Ok out.
Proof.
  intros Hall. revert out.
  induction Hall as [|[n [ty dflt]] fields [Hidem Hdflt] Hall IH]; intros out;
    [done|].
  simpl in Hidem, Hdflt. simpl.
  destruct (match dict_get n d with Some _ => _ | None => _ end) as [x|] eqn:Ex;
    [|done]. simpl.
  destruct (validate_fields val d fields) as [rest|]; [|done]. simpl.
  intros [= <-] HD. rewrite (HD n x) by left.
  assert (val ty x = Ok x) as ->.
  { destruct (dict_get n d) as [v|]; [by eapply Hidem|].
    destruct (default_value dflt) as [dv|] eqn:Edv; [|done].
    injection Ex as <-. by apply Hdflt. }
  simpl. rewrite (IH rest eq_refl); [done|].
  intros n' x' Hin. apply HD. by right.
Qed.

(** The member that a tag selects does not depend on the value. *)
Lemma validate_tagged_select val disc tag variants :
  (∃ t, t ∈ variants ∧ has_tag disc tag t = true
        ∧ ∀ v, validate_tagged val disc tag v variants = val t v)
  ∨ (∀ v, validate_tagged val disc tag v variants
          = Err (ValidationError ("union_tag_invalid: " +:+ tag))).
Proof.
  induction variants as [|t vs IH]; [by right|]. simpl.
  destruct (has_tag disc tag t) eqn:E.
  - left. exists t. split; [left|]. done.
  - destruct IH as [(t' & Hin & Ht & Hv)|Hv]; [|by right].
    left. exists t'. split; [by right|]. done.
Qed.

Lemma has_tag_model disc tag t :
  has_tag disc tag t = true →
  ∃ fields dflt, t = TModel fields
    ∧ get_field disc fields = Some (TLiteral tag, dflt).
Proof.
  unfold has_tag, discriminator_tag.
  destruct t as [| | | |fields|]; try done. simpl.
  destruct (get_field disc fields) as [[[| s | | | |] dflt]|] eqn:Hg; try done.
  intros E. apply String.eqb_eq in E as ->. by eexists _, _.
Qed.

(** On a well-formed schema, a value that validation returns is accepted
    unchanged. *)
Lemma validate_again t :
  well_formed t → ∀ v out, validate t v = Ok out → validate t out = Ok out.
Proof.
  induction t as [values|s| |elem IH|fields IH|disc variants IH]
    using schema_nested_ind; intros Hwf v out.
  - destruct v as [| | |s| |]; try done. simpl.
    destruct (existsb _ values) eqn:E; [|done]. intros [= <-]. simpl.
    by rewrite E.
  - destruct v as [| | |s'| |]; try done. simpl.
    destruct (String.eqb s' s) eqn:E; [|done]. intros [= <-]. simpl.
    by rewrite E.
  - destruct v as [| | |s| |]; try done. simpl.
    destruct (Identifier_valid s) eqn:E; [|done]. intros [= <-]. simpl.
    by rewrite E.
  - destruct v as [| | | |l|]; try done. simpl.
    destruct (validate_items _ l) as [l'|] eqn:E; [|done]. simpl.
    intros [= <-]. simpl.
    rewrite (validate_items_again _ l l'); [done| |done].
    apply Forall_forall. intros x _ y. by apply IH.
  - rewrite !validate_model. destruct v as [| | | | |d]; try done.
    destruct (validate_fields _ d fields) as [d'|] eqn:E; [|done]. simpl.
    intros [= <-].
    apply well_formed_model in Hwf as [Hnd Hfs].
    rewrite (validate_fields_again _ d d' fields d'); [done| |done|].
    + clear E Hnd. induction fields as [|f fields IHf]; [constructor|].
      apply Forall_cons in IH as [IHt IH], Hfs as [[Hf Hd] Hfs].
      constructor; [|by apply IHf]. split; [by apply IHt|done].
    + intros n x Hin. apply dict_get_NoDup; [|done].
      by rewrite (validate_fields_names _ _ _ _ E).
  - rewrite validate_union. destruct v as [| | | | |d]; try done.
    destruct (dict_get disc d) as [[| | |tag| |]|] eqn:Hd; try done.
    destruct (validate_tagged_select validate disc tag variants)
      as [(t & Hin & Ht & Hsel)|Herr]; [|by rewrite Herr].
    rewrite Hsel. intros Hv.
    destruct (has_tag_model _ _ _ Ht) as (fields & dflt & -> & Hg).
    rewrite Forall_forall in IH.
    pose proof (well_formed_union _ _ Hwf) as Hwfs.
    rewrite Forall_forall in Hwfs.
    pose proof (IH _ Hin (Hwfs _ Hin) _ _ Hv) as Hagain.
    rewrite validate_model in Hv.
    destruct (validate_fields _ d fields) as [d'|] eqn:E; [|done].
    injection Hv as <-.
    destruct (validate_fields_lookup _ _ _ _ _ _ _ E Hg) as (x & Hx & Hval).
    rewrite Hd in Hval. simpl in Hval. rewrite String.eqb_refl in Hval.
    injection Hval as <-.
    rewrite validate_union, Hx, Hsel. exact Hagain.
Qed.

Lemma system_model_well_formed (k : SignalingSystem) :
  well_formed (system_model k).
Proof.
  destruct k; cbn; repeat split;
    try (by apply (bool_decide_unpack _));
    try (by intros dv [= <-]); by intros dv.
Qed.

Lemma LimitedLogicalSignal_well_formed : well_formed LimitedLogicalSignal.
Proof.
  pose proof (system_model_well_formed bal).
  pose proof (system_model_well_formed bapr).
  pose proof (system_model_well_formed tvm300).
  pose proof (system_model_well_formed tvm430).
  pose proof (system_model_well_formed etcsLevel2).
  change (well_formed (system_model bal)
          ∧ well_formed (system_model bapr)
          ∧ well_formed (system_model tvm300)
          ∧ well_formed (system_model tvm430)
          ∧ well_formed (system_model etcsLevel2) ∧ True).
  done.
Qed.

Lemma _TmpSignal_well_formed : well_formed _TmpSignal.
Proof.
  pose proof LimitedLogicalSignal_well_formed as H.
  change (NoDup ["logical_signals"]
          ∧ (well_formed LimitedLogicalSignal
             ∧ ∀ dv, Some (VList []) = Some dv →
                     validate (TList LimitedLogicalSignal) dv = Ok dv)
            ∧ True).
  split; [by apply (bool_decide_unpack _)|].
  split; [|done]. split; [done|]. by intros dv [= <-].
Qed.

(** Validation is a projection: a value returned by the validation of a
    signal ([_TmpSignal]), of a logical signal ([LimitedLogicalSignal]) or of
    one of the five models is accepted by the same validation, which returns
    it unchanged.  (Loading what was dumped changes nothing.) *)
Theorem revalidation_returns_same (t : schema) (v out : value) :
  t ∈ _TmpSignal :: LimitedLogicalSignal
      :: (system_model <$> SignalingSystem_members) →
  validate t v = Ok out →
  validate t out = Ok out.
Proof.
  intros Ht. apply validate_again.
  repeat (apply elem_of_cons in Ht as [->|Ht]);
    try apply _TmpSignal_well_formed;
    try apply LimitedLogicalSignal_well_formed;
    try apply system_model_well_formed.
  by apply elem_of_nil in Ht.
Qed.

(** The items of a validated list are the validated items of the input, one
    for one and in order. *)
Lemma validate_items_Forall2 (val : value → result value) l l' :
  validate_items val l = Ok l' ↔ Forall2 (fun x y => val x = Ok y) l l'.
Proof.
  split.
  - revert l'. induction l as [|x l IH]; intros l'.
    + intros [= <-]. constructor.
    + simpl. destruct (val x) as [y|] eqn:Ey; [|done]. simpl.
      destruct (validate_items val l) as [ys|]; [|done]. simpl.
      intros [= <-]. constructor; [done|by apply IH].
  - induction 1 as [|x y l l' Hxy Hl IH]; [done|].
    simpl. rewrite Hxy. simpl. by rewrite IH.
Qed.

Lemma validate_list elem v :
  validate (TList elem) v
  = match v with
    | VList l => l' ← validate_items (validate elem) l; Ok (VList l')
    | _ => Err (ValidationError "list_type")
    end.
Proof. by destruct v. Qed.

(** What an accepted logical signal is. *)
Lemma LimitedLogicalSignal_Ok v out :
  validate LimitedLogicalSignal v = Ok out →
  ∃ k d d',
    v = VDict d ∧ out = VDict d'
    ∧ dict_get "signaling_system" d = Some (VStr (SignalingSystem_value k))
    ∧ dict_get "signaling_system" d' = Some (VStr (SignalingSystem_value k))
    ∧ validate (system_model k) v = Ok out.
Proof.
  intros Hv.
  assert (∃ d tag, v = VDict d
                   ∧ dict_get "signaling_system" d = Some (VStr tag))
    as (d & tag & -> & Hd).
  { unfold LimitedLogicalSignal in Hv. rewrite validate_union in Hv.
    destruct v as [| | | | |d]; try done.
    destruct (dict_get _ d) as [[]|] eqn:Hd; try done. by eexists _, _. }
  rewrite (validate_LimitedLogicalSignal _ _ _ Hd) in Hv.
  destruct (SignalingSystem_of_value tag) as [k|] eqn:Hk; [|done].
  apply SignalingSystem_of_value_Some in Hk as ->.
  destruct (validate_system_model _ _ _ _ Hv) as (d' & -> & Hf & _).
  destruct (validate_fields_lookup _ _ _ _ _ _ _ Hf (signaling_system_field k))
    as (x & Hx & Hval).
  rewrite Hd in Hval. simpl in Hval. rewrite String.eqb_refl in Hval.
  injection Hval as <-. by exists k, d, d'.
Qed.

(** The logical signals of a signal: when the input has no
    "logical_signals", the signal has the empty list; otherwise the input's
    "logical_signals" must be a list, and the signal has one validated
    logical signal per item of it, in the same order (none is merged or
    dropped), each of one of the five kinds.  One item that is not a valid
    logical signal makes the whole signal invalid. *)
Theorem _TmpSignal_logical_signals (d : list (string * value)) (out : value) :
  validate _TmpSignal (VDict d) = Ok out →
  ∃ signals,
    out = VDict [("logical_signals", VList signals)]
    ∧ match dict_get "logical_signals" d with
      | None => signals = []
      | Some (VList items) =>
          length signals = length items
          ∧ Forall2 (fun item signal =>
                       validate LimitedLogicalSignal item = Ok signal
                       ∧ ∃ k ds,
                           signal = VDict ds
                           ∧ dict_get "signaling_system" ds
                             = Some (VStr (SignalingSystem_value k)))
              items signals
      | Some _ => False
      end.
Proof.
  unfold _TmpSignal. rewrite validate_model.
  cbn [validate_fields default_value].
  destruct (dict_get "logical_signals" d) as [v|].
  - rewrite validate_list. destruct v as [| | | |items|]; try done.
    destruct (validate_items _ items) as [signals|] eqn:E; [|done].
    simpl. intros [= <-]. exists signals. split; [done|].
    apply validate_items_Forall2 in E. split.
    { symmetry. by eapply Forall2_length. }
    eapply Forall2_impl; [exact E|]. intros item signal Hv. split; [done|].
    destruct (LimitedLogicalSignal_Ok _ _ Hv) as (k & ? & ds & _ & -> & _ & ? & _).
    by exists k, ds.
  - simpl. intros [= <-]. by exists [].
Qed.

End revalidation.

Example revalidation_returns_same_witness :
  let idv := fun _ : string => true in
  let bal := infra_editor.VDict
               [("signaling_system", infra_editor.VStr "BAL");
                ("settings",
                 infra_editor.VDict [("Nf", infra_editor.VStr "true")]);
                ("default_parameters",
                 infra_editor.VDict [("jaune_cli", infra_editor.VStr "false")])] in
  ∃ out, infra_editor.validate idv infra_editor.LimitedLogicalSignal bal = Ok out
    ∧ out ≠ bal
    ∧ infra_editor.validate idv infra_editor.LimitedLogicalSignal out = Ok out.
Proof.
  intros idv bal. eexists. split; [reflexivity|]. split; [discriminate|].
  apply (revalidation_returns_same idv infra_editor.LimitedLogicalSignal bal).
  - right. left.
  - reflexivity.
Defined.

Example _TmpSignal_logical_signals_witness :
  let idv := fun _ : string => true in
  let ls kind :=
    infra_editor.VDict
      [("signaling_system", infra_editor.VStr kind);
       ("settings", infra_editor.VDict [("Nf", infra_editor.VStr "true")]);
       ("default_parameters", infra_editor.VDict [])] in
  let d := [("logical_signals",
             infra_editor.VList [ls "TVM300"; ls "TVM430"; ls "TVM300"])] in
  ∃ signals,
    infra_editor.validate idv infra_editor._TmpSignal (infra_editor.VDict d)
    = Ok (infra_editor.VDict [("logical_signals", infra_editor.VList signals)])
    ∧ length signals = 3%nat.
Proof.
  intros idv ls d.
  destruct (_TmpSignal_logical_signals idv d _ eq_refl)
    as (signals & Hout & Hlen & _).
  exists signals. split; [by rewrite <- Hout|exact Hlen].
Defined.

(** ** infra_editor.py: what a logical signal must contain *)

Section logical_signal_contents.
Import infra_editor.
Variable Identifier_valid : string → bool.

#[local] Abbreviation validate := (infra_editor.validate Identifier_valid).

(** A required field of a valid input: the input has it, and the result
    holds its validated value. *)
Lemma validate_fields_required_lookup val d fields out name ty :
  validate_fields val d fields = Ok out →
  get_field name fields = Some (ty, Required) →
  ∃ v x, dict_get name d = Some v ∧ val ty v = Ok x
         ∧ dict_get name out = Some x.
Proof.
  intros Hf Hg.
  destruct (validate_fields_lookup _ _ _ _ _ _ _ Hf Hg) as (x & Hx & Hval).
  destruct (dict_get name d) as [v|] eqn:Hd; [by exists v, x|done].
Qed.

Lemma validate_model_Ok fields v out :
  validate (TModel fields) v = Ok out →
  ∃ d d', v = VDict d ∧ out = VDict d'
          ∧ validate_fields validate d fields = Ok d'.
Proof.
  rewrite validate_model. destruct v as [| | | | |d]; try done.
  destruct (validate_fields _ d fields) as [d'|] eqn:E; [|done].
  intros [= <-]. by exists d, d'.
Qed.

Lemma validate_flag v x :
  validate FlagSignalParameter_schema v = Ok x →
  ∃ f, v = VStr (FlagSignalParameter_value f) ∧ x = v.
Proof.
  destruct v as [| | |s| |]; try done. simpl.
  destruct (String.eqb s "true") eqn:E1.
  { apply String.eqb_eq in E1 as ->. intros [= <-]. by exists true_. }
  destruct (String.eqb s "false") eqn:E2; [|done].
  apply String.eqb_eq in E2 as ->. intros [= <-]. by exists false_.
Qed.

Lemma validate_identifier v x :
  validate TIdentifier v = Ok x →
  ∃ s, v = VStr s ∧ x = v ∧ Identifier_valid s = true.
Proof.
  destruct v as [| | |s| |]; try done. simpl.
  destruct (Identifier_valid s) eqn:E; [|done]. intros [= <-]. by exists s.
Qed.

(** A flag field of a settings or parameters model. *)
Lemma flag_field fields name v out :
  validate (TModel fields) v = Ok out →
  get_field name fields = Some (FlagSignalParameter_schema, Required) →
  ∃ d f, v = VDict d
         ∧ dict_get name d = Some (VStr (FlagSignalParameter_value f)).
Proof.
  intros Hv Hg. apply validate_model_Ok in Hv as (d & d' & -> & _ & Hf).
  destruct (validate_fields_required_lookup _ _ _ _ _ _ Hf Hg)
    as (w & x & Hd & Hw & _).
  apply validate_flag in Hw as (f & -> & _). by exists d, f.
Qed.

Lemma SignalingSystem_of_value_value (k : SignalingSystem) :
  SignalingSystem_of_value (SignalingSystem_value k) = Some k.
Proof. by destruct k. Qed.

(** The union needs the tag in the input, although each model has a default
    for it: an input without "signaling_system" that is a valid model of some
    kind is rejected as a [LimitedLogicalSignal]; the validated model, which
    carries the tag, is accepted. *)
Theorem discriminator_is_mandatory (k : SignalingSystem)
  (d : list (string * value)) (out : value) :
  dict_get "signaling_system" d = None →
  validate (system_model k) (VDict d) = Ok out →
  (∃ msg, validate LimitedLogicalSignal (VDict d) = Err (ValidationError msg))
  ∧ validate LimitedLogicalSignal out = Ok out.
Proof.
  intros Hd Hv. split.
  - unfold LimitedLogicalSignal. rewrite validate_union, Hd. by eexists.
  - pose proof (validate_again _ _ (system_model_well_formed _ k) _ _ Hv)
      as Hagain.
    destruct (validate_system_model _ _ _ _ Hv) as (d' & -> & Hf & _).
    destruct (validate_fields_lookup _ _ _ _ _ _ _ Hf (signaling_system_field k))
      as (x & Hx & Hval).
    rewrite Hd in Hval. injection Hval as <-.
    rewrite (validate_LimitedLogicalSignal _ _ _ Hx).
    by rewrite SignalingSystem_of_value_value.
Qed.

(** The settings of a valid logical signal: the input has a dict "settings"
    whose "Nf" is the string "true" or "false"; for BAPR its "distant" is
    such a flag too; for BAL the input has a dict "default_parameters" whose
    "jaune_cli" is such a flag. *)
Theorem settings_are_flags (k : SignalingSystem) (d : list (string * value))
  (out : value) :
  validate (system_model k) (VDict d) = Ok out →
  ∃ settings Nf,
    dict_get "settings" d = Some (VDict settings)
    ∧ dict_get "Nf" settings = Some (VStr (FlagSignalParameter_value Nf))
    ∧ (k = bapr →
       ∃ distant, dict_get "distant" settings
                  = Some (VStr (FlagSignalParameter_value distant)))
    ∧ (k = bal →
       ∃ parameters jaune_cli,
         dict_get "default_parameters" d = Some (VDict parameters)
         ∧ dict_get "jaune_cli" parameters
           = Some (VStr (FlagSignalParameter_value jaune_cli))).
Proof.
  intros Hv. destruct (validate_system_model _ _ _ _ Hv) as (d' & -> & Hf & _).
  assert (∃ ty, get_field "settings" (model_fields (system_model k))
                = Some (TModel ty, Required)
                ∧ get_field "Nf" ty = Some (FlagSignalParameter_schema, Required)
                ∧ (k = bapr → get_field "distant" ty
                              = Some (FlagSignalParameter_schema, Required)))
    as (ty & Hg & HNf & Hdist) by (destruct k; by eexists).
  destruct (validate_fields_required_lookup _ _ _ _ _ _ Hf Hg)
    as (v & x & Hd & Hval & _).
  destruct (flag_field _ _ _ _ Hval HNf) as (settings & Nf & -> & HdNf).
  exists settings, Nf. split; [done|]. split; [done|]. split.
  - intros Hk. destruct (flag_field _ _ _ _ Hval (Hdist Hk))
      as (? & distant & [= <-] & ?). by exists distant.
  - intros ->.
    destruct (validate_fields_required_lookup _ _ _ _ "default_parameters"
                BalSystem.Parameters Hf eq_refl) as (p & y & Hp & Hvp & _).
    destruct (flag_field _ "jaune_cli" _ _ Hvp eq_refl)
      as (parameters & j & -> & Hj).
    by exists parameters, j.
Qed.

Lemma conditional_parameters_schema (k : SignalingSystem) :
  ∃ P, get_field "conditional_parameters" (model_fields (system_model k))
       = Some (TList (TModel [("on_route", (TIdentifier, Required));
                              ("parameters", (P, Required))]),
               DefaultFactoryList).
Proof. destruct k; by eexists. Qed.

(** The conditional parameters of a valid logical signal: when the input
    has "conditional_parameters", it is a list, and the result keeps one
    entry per item, in the same order (duplicates included); every item is a
    dict with "parameters" and with an "on_route" that is a valid identifier,
    kept as it is. *)
Theorem conditional_parameters_are_kept (k : SignalingSystem)
  (d d' : list (string * value)) (v : value) :
  validate (system_model k) (VDict d) = Ok (VDict d') →
  dict_get "conditional_parameters" d = Some v →
  ∃ items kept,
    v = VList items
    ∧ dict_get "conditional_parameters" d' = Some (VList kept)
    ∧ length kept = length items
    ∧ Forall2 (fun item entry =>
                 ∃ di de route,
                   item = VDict di ∧ entry = VDict de
                   ∧ dict_get "on_route" di = Some (VStr route)
                   ∧ Identifier_valid route = true
                   ∧ dict_get "on_route" de = Some (VStr route)
                   ∧ is_Some (dict_get "parameters" di))
        items kept.
Proof.
  intros Hv Hd. destruct (validate_system_model _ _ _ _ Hv) as (? & [= <-] & Hf & _).
  destruct (conditional_parameters_schema k) as [P Hg].
  destruct (validate_fields_lookup _ _ _ _ _ _ _ Hf Hg) as (x & Hx & Hval).
  rewrite Hd, validate_list in Hval. destruct v as [| | | |items|]; try done.
  destruct (validate_items _ items) as [kept|] eqn:E; [|done].
  injection Hval as <-. exists items, kept. split; [done|]. split; [done|].
  apply validate_items_Forall2 in E. split.
  { symmetry. by eapply Forall2_length. }
  eapply Forall2_impl; [exact E|]. intros item entry Hitem.
  apply validate_model_Ok in Hitem as (di & de & -> & -> & Hfi).
  destruct (validate_fields_required_lookup _ _ _ _ "on_route" TIdentifier
              Hfi eq_refl) as (r & y & Hr & Hvr & Hy).
  apply validate_identifier in Hvr as (route & -> & -> & Hid).
  destruct (validate_fields_required_lookup _ _ _ _ "parameters" P Hfi eq_refl)
    as (p & ? & Hp & _).
  exists di, de, route. rewrite Hp. by eauto 10.
Qed.

End logical_signal_contents.

(** ** infra_editor.py: make_extensions_non_nullable *)

Section extensions.
Import schema_tools.

Lemma append_nil_l (s : string) : "" +:+ s = s.
Proof. reflexivity. Qed.

Lemma append_cons (c : Ascii.ascii) (p s : string) :
  String c p +:+ s = String c (p +:+ s).
Proof. reflexivity. Qed.

Lemma substring_all (s : string) : String.substring 0 (String.length s) s = s.
Proof. induction s as [|c s IH]; simpl; [done|]. by rewrite IH. Qed.

Lemma substring_append (p suffix : string) :
  String.substring (String.length p) (String.length suffix) (p +:+ suffix)
  = suffix.
Proof.
  induction p as [|c p IH].
  - rewrite append_nil_l. apply substring_all.
  - rewrite append_cons. simpl. apply IH.
Qed.

Lemma length_append (p s : string) :
  String.length (p +:+ s) = (String.length p + String.length s)%nat.
Proof.
  induction p as [|c p IH]; [done|]. rewrite append_cons. simpl.
  by rewrite IH.
Qed.

Lemma substring_split (n : nat) (s : string) :
  (n ≤ String.length s)%nat →
  s = String.substring 0 n s +:+ String.substring n (String.length s - n) s.
Proof.
  revert n. induction s as [|c s IH]; intros n Hn; simpl in Hn.
  - by replace n with 0%nat by lia.
  - destruct n as [|n].
    + rewrite Nat.sub_0_r, substring_all.
      change (String.substring 0 0 (String c s)) with "".
      by rewrite append_nil_l.
    + change (String.substring 0 (S n) (String c s))
        with (String c (String.substring 0 n s)).
      change (String.substring (S n) (String.length (String c s) - S n)
                (String c s))
        with (String.substring n (String.length s - n) s).
      rewrite append_cons. f_equal. apply IH. lia.
Qed.

(** [endswith] holds exactly of the strings that end with the suffix. *)
Lemma endswith_spec (s suffix : string) :
  endswith s suffix = true ↔ ∃ p, s = p +:+ suffix.
Proof.
  unfold endswith. split.
  - intros H. apply andb_prop in H as [Hlen Heq].
    apply Nat.leb_le in Hlen. apply String.eqb_eq in Heq.
    exists (String.substring 0 (String.length s - String.length suffix) s).
    pose proof (substring_split (String.length s - String.length suffix) s)
      as Hs.
    replace (String.length s - (String.length s - String.length suffix))%nat
      with (String.length suffix) in Hs by lia.
    rewrite Heq in Hs. apply Hs. lia.
  - intros [p ->]. rewrite length_append. apply andb_true_intro. split.
    + apply Nat.leb_le. lia.
    + replace (String.length p + String.length suffix - String.length suffix)%nat
        with (String.length p) by lia.
      rewrite substring_append. apply String.eqb_refl.
Qed.

Lemma get_set_eq key v d : get key (set key v d) = Some v.
Proof.
  induction d as [|[k x] d IH]; simpl; [by rewrite String.eqb_refl|].
  destruct (String.eqb k key) eqn:E; simpl; by rewrite E.
Qed.

Lemma get_set_ne key key' v d :
  key' ≠ key → get key' (set key v d) = get key' d.
Proof.
  intros Hne.
  assert (E0 : String.eqb key key' = false)
    by (apply String.eqb_neq; congruence).
  induction d as [|[k x] d IH]; simpl; [by rewrite E0|].
  destruct (String.eqb k key) eqn:E; simpl; [|by rewrite IH].
  apply String.eqb_eq in E as ->. by rewrite E0.
Qed.

Lemma set_keys key v d : is_Some (get key d) → (set key v d).*1 = d.*1.
Proof.
  induction d as [|[k x] d IH]; simpl; [by intros [? ?]|].
  destruct (String.eqb k key); [done|]. intros H.
  rewrite !fmap_cons. f_equal. by apply IH.
Qed.

Lemma get_None key d : key ∉ d.*1 → get key d = None.
Proof.
  induction d as [|[k x] d IH]; [done|]. rewrite fmap_cons. simpl.
  intros H. apply not_elem_of_cons in H as [Hne H].
  destruct (String.eqb k key) eqn:E; [|by apply IH].
  by apply String.eqb_eq in E.
Qed.

Lemma set_new key v d : key ∉ d.*1 → set key v d = d ++ [(key, v)].
Proof.
  induction d as [|[k x] d IH]; [done|]. rewrite fmap_cons. simpl.
  intros H. apply not_elem_of_cons in H as [Hne H].
  destruct (String.eqb k key) eqn:E; [by apply String.eqb_eq in E|].
  by rewrite IH.
Qed.

Lemma Forall2_keys (R : string * json → string * json → Prop)
  (d d' : list (string * json)) :
  Forall2 (fun x y => y.1 = x.1 ∧ R x y) d d' → d'.*1 = d.*1.
Proof.
  induction 1 as [|x y l l' [Hxy _] _ IH]; [done|].
  rewrite !fmap_cons. by f_equal.
Qed.

(** In two dicts with the same keys in the same order, whose values at the
    same place are related, the values of a key are related. *)
Lemma get_Forall2 (R : string → json → json → Prop) d d' key :
  Forall2 (fun x y => y.1 = x.1 ∧ R x.1 x.2 y.2) d d' →
  match get key d, get key d' with
  | Some v, Some v' => R key v v'
  | None, None => True
  | _, _ => False
  end.
Proof.
  induction 1 as [|[k v] [k' v'] d d' [Hk HR] _ IH]; simpl; [done|].
  simpl in Hk, HR. subst k'. destruct (String.eqb k key) eqn:E; [|done].
  by apply String.eqb_eq in E as ->.
Qed.

(** The new definition of a property has the two keys "default" and
    "$ref". *)
Lemma non_nullable_Return prop_def q :
  non_nullable prop_def = Return q ↔
  ∃ ref, ref_of prop_def = Return ref
         ∧ q = JDict [("default", JNull); ("$ref", ref)].
Proof.
  unfold non_nullable, ref_of.
  destruct (getitem prop_def "anyOf") as [a|]; simpl; [|split; [done|by intros (?&?&?)]].
  destruct (getitem_0 a) as [f|]; simpl; [|split; [done|by intros (?&?&?)]].
  destruct (getitem f "$ref") as [r|]; simpl; [|split; [done|by intros (?&?&?)]].
  split.
  - intros [= <-]. by exists r.
  - by intros (ref & [= <-] & ->).
Qed.

(** The inner loop over properties of distinct names: the new properties
    are appended to the given ones, one per property and in order. *)
Lemma new_properties_loop_Return properties acc out :
  new_properties_loop properties acc = Return out →
  NoDup (acc.*1 ++ properties.*1) →
  ∃ new, out = acc ++ new
    ∧ Forall2 (fun p q => q.1 = p.1 ∧ non_nullable p.2 = Return q.2)
        properties new.
Proof.
  revert acc. induction properties as [|[n pd] ps IH]; intros acc.
  - intros [= <-] _. exists []. by rewrite app_nil_r.
  - intros Hl Hnd. simpl in Hl.
    destruct (non_nullable pd) as [q|] eqn:Eq; [|done]. simpl in Hl.
    rewrite fmap_cons in Hnd. simpl in Hnd.
    assert (Hn : n ∉ acc.*1).
    { apply NoDup_app in Hnd as (_ & Hd & _). intros Hin.
      apply (Hd n Hin). left. }
    rewrite set_new in Hl by done.
    destruct (IH _ Hl) as (new & -> & Hnew).
    { rewrite fmap_app, <- (assoc_L (++)). done. }
    exists ((n, q) :: new). rewrite <- (assoc_L (++)). split; [done|].
    by constructor.
Qed.

(** Whatever the names, the new properties all have the new form, and there
    is at least one when the definition had a property. *)
Lemma set_Forall (P : json → Prop) key v d :
  P v → Forall (fun kv => P kv.2) d → Forall (fun kv => P kv.2) (set key v d).
Proof.
  intros Hv. induction 1 as [|[k x] d Hx Hd IH]; simpl; [by repeat constructor|].
  destruct (String.eqb k key); constructor; done.
Qed.

Lemma set_not_nil key v d : set key v d ≠ [].
Proof. destruct d as [|[k x] d]; simpl; [done|]. by destruct (String.eqb k key). Qed.

Lemma new_properties_loop_form properties acc out :
  new_properties_loop properties acc = Return out →
  Forall (fun kv => is_non_nullable kv.2) acc →
  Forall (fun kv => is_non_nullable kv.2) out
  ∧ (properties ≠ [] ∨ acc ≠ [] → out ≠ []).
Proof.
  revert acc. induction properties as [|[n pd] ps IH]; intros acc.
  - intros [= <-] Hacc. split; [done|]. by intros [?|?].
  - simpl. destruct (non_nullable pd) as [q|] eqn:Eq; [|done]. simpl.
    intros Hl Hacc. apply non_nullable_Return in Eq as (ref & _ & ->).
    destruct (IH _ Hl) as [Hout Hne].
    { apply set_Forall; [by eexists|done]. }
    split; [done|]. intros _. apply Hne. right. apply set_not_nil.
Qed.

(** One iteration of the outer loop. *)
Lemma update_definition_other name definition :
  endswith name "Extensions" = false →
  update_definition name definition = Return definition.
Proof. unfold update_definition. by intros ->. Qed.

Lemma update_definition_Extensions name definition definition' :
  endswith name "Extensions" = true →
  update_definition name definition = Return definition' →
  ∃ d properties new,
    definition = JDict d
    ∧ get "properties" d = Some (JDict properties)
    ∧ new_properties_loop properties [] = Return new
    ∧ definition' = JDict (set "properties" (JDict new) d).
Proof.
  unfold update_definition. intros ->. simpl.
  destruct definition as [| | | | | |d]; try done. simpl.
  destruct (get "properties" d) as [[| | | | | |properties]|] eqn:Hp; try done.
  simpl. destruct (new_properties_loop properties []) as [new|] eqn:E; [|done].
  simpl. intros [= <-]. by exists d, properties, new.
Qed.

Lemma definitions_loop_Return defs defs' :
  definitions_loop defs = Return defs' ↔
  Forall2 (fun x y => y.1 = x.1 ∧ update_definition x.1 x.2 = Return y.2)
    defs defs'.
Proof.
  split.
  - revert defs'. induction defs as [|[n def] defs IH]; intros defs'.
    + intros [= <-]. constructor.
    + simpl. destruct (update_definition n def) as [def'|] eqn:E; [|done].
      simpl. destruct (definitions_loop defs) as [rest|]; [|done]. simpl.
      intros [= <-]. constructor; [done|by apply IH].
  - induction 1 as [|[n def] [n' def'] defs defs' [Hn Hu] _ IH]; [done|].
    simpl in *. subst n'. by rewrite Hu, IH.
Qed.

Lemma make_extensions_non_nullable_Return schema schema' :
  make_extensions_non_nullable schema = Return schema' →
  ∃ defs defs',
    get "$defs" schema = Some (JDict defs)
    ∧ definitions_loop defs = Return defs'
    ∧ schema' = set "$defs" (JDict defs') schema.
Proof.
  unfold make_extensions_non_nullable. simpl.
  destruct (get "$defs" schema) as [[| | | | | |defs]|] eqn:Hd; try done.
  simpl. destruct (definitions_loop defs) as [defs'|] eqn:E; [|done].
  simpl. intros [= <-]. by exists defs, defs'.
Qed.

(** What [make_extensions_non_nullable] leaves alone.  When it returns, the
    schema has the same keys in the same order and the same values except
    under "$defs"; "$defs" has the same names in the same order; a
    definition whose name does not end with "Extensions" is unchanged; and a
    definition whose name ends with "Extensions" keeps its keys and its
    values except under "properties". *)
Theorem make_extensions_non_nullable_frame
  (schema schema' : list (string * json)) :
  make_extensions_non_nullable schema = Return schema' →
  schema'.*1 = schema.*1
  ∧ (∀ key, key ≠ "$defs" → get key schema' = get key schema)
  ∧ ∃ defs defs',
      get "$defs" schema = Some (JDict defs)
      ∧ get "$defs" schema' = Some (JDict defs')
      ∧ defs'.*1 = defs.*1
      ∧ (∀ name, endswith name "Extensions" = false →
           get name defs' = get name defs)
      ∧ (∀ name definition,
           endswith name "Extensions" = true →
           get name defs = Some definition →
           ∃ d d', definition = JDict d
             ∧ get name defs' = Some (JDict d')
             ∧ d'.*1 = d.*1
             ∧ ∀ key, key ≠ "properties" → get key d' = get key d).
Proof.
  intros H.
  apply make_extensions_non_nullable_Return in H as (defs & defs' & Hd & Hl & ->).
  split; [by apply set_keys|]. split; [intros key Hk; by apply get_set_ne|].
  exists defs, defs'. split; [done|]. split; [apply get_set_eq|].
  apply definitions_loop_Return in Hl. split; [|split].
  - by eapply (Forall2_keys _ _ _ Hl).
  - intros name Hn.
    pose proof (get_Forall2
                  (fun n v v' => update_definition n v = Return v')
                  defs defs' name Hl) as Hg.
    destruct (get name defs) as [v|], (get name defs') as [v'|]; try done.
    rewrite update_definition_other in Hg by done. by injection Hg as ->.
  - intros name definition Hn Hg0.
    pose proof (get_Forall2
                  (fun n v v' => update_definition n v = Return v')
                  defs defs' name Hl) as Hg.
    rewrite Hg0 in Hg. destruct (get name defs') as [v'|]; [|done].
    apply update_definition_Extensions in Hg as (d & ps & new & -> & Hp & _ & ->);
      [|done].
    eexists d, _. split; [done|]. split; [done|].
    split; [by apply set_keys|]. intros key Hk. by apply get_set_ne.
Qed.

(** What [make_extensions_non_nullable] changes.  In a definition whose name
    ends with "Extensions", "properties" keeps its property names in their
    order, and each property [p] becomes the dict with the two keys "default",
    bound to [None], and "$ref", bound to [p["anyOf"][0]["$ref"]]. *)
Theorem make_extensions_non_nullable_properties
  (schema schema' defs d properties : list (string * json)) (name : string) :
  make_extensions_non_nullable schema = Return schema' →
  get "$defs" schema = Some (JDict defs) →
  endswith name "Extensions" = true →
  get name defs = Some (JDict d) →
  get "properties" d = Some (JDict properties) →
  NoDup properties.*1 →
  ∃ defs' d' new,
    get "$defs" schema' = Some (JDict defs')
    ∧ get name defs' = Some (JDict d')
    ∧ get "properties" d' = Some (JDict new)
    ∧ new.*1 = properties.*1
    ∧ ∀ prop_name prop_def,
        get prop_name properties = Some prop_def →
        ∃ ref, ref_of prop_def = Return ref
          ∧ get prop_name new
            = Some (JDict [("default", JNull); ("$ref", ref)]).
Proof.
  intros H Hd Hn Hg Hp Hnd.
  apply make_extensions_non_nullable_Return in H as (defs0 & defs' & Hd0 & Hl & ->).
  rewrite Hd in Hd0. injection Hd0 as <-.
  apply definitions_loop_Return in Hl.
  pose proof (get_Forall2 (fun n v v' => update_definition n v = Return v')
                defs defs' name Hl) as Hg'.
  rewrite Hg in Hg'. destruct (get name defs') as [v'|] eqn:Hv'; [|done].
  apply update_definition_Extensions in Hg'
    as (d0 & ps & new & [= <-] & Hp0 & Hloop & ->); [|done].
  rewrite Hp in Hp0. injection Hp0 as <-.
  apply new_properties_loop_Return in Hloop as (new' & -> & Hnew); [|done].
  simpl in *. exists defs', (set "properties" (JDict new') d), new'.
  split; [apply get_set_eq|]. split; [done|]. split; [apply get_set_eq|].
  split.
  - by eapply (Forall2_keys _ _ _ Hnew).
  - intros prop_name prop_def Hpd.
    pose proof (get_Forall2 (fun _ v v' => non_nullable v = Return v')
                  properties new' prop_name Hnew) as Hq.
    rewrite Hpd in Hq. destruct (get prop_name new') as [q|]; [|done].
    apply non_nullable_Return in Hq as (ref & Href & ->). by exists ref.
Qed.

(** A second pass over a definition that a first pass returned. *)
Lemma update_definition_twice name definition definition' :
  update_definition name definition = Return definition' →
  (∃ r, update_definition name definition' = Return r)
  ∨ update_definition name definition' = Raise (KeyError (JStr "anyOf")).
Proof.
  intros Hu. destruct (endswith name "Extensions") eqn:Hn.
  - destruct (update_definition_Extensions _ _ _ Hn Hu)
      as (d & ps & new & -> & Hp & Hloop & ->).
    unfold update_definition. rewrite Hn. simpl. rewrite get_set_eq. simpl.
    destruct (new_properties_loop_form _ _ _ Hloop) as [Hform _];
      [constructor|].
    destruct Hform as [|[n q] new [ref Hq] _]; [left; by eexists|].
    right. simpl in Hq. subst q. done.
  - left. exists definition'. by apply update_definition_other.
Qed.

Lemma update_definition_twice_Raise name d pn pd properties definition' :
  endswith name "Extensions" = true →
  get "properties" d = Some (JDict ((pn, pd) :: properties)) →
  update_definition name (JDict d) = Return definition' →
  update_definition name definition' = Raise (KeyError (JStr "anyOf")).
Proof.
  intros Hn Hp Hu.
  destruct (update_definition_Extensions _ _ _ Hn Hu)
    as (d0 & ps & new & [= <-] & Hp0 & Hloop & ->).
  rewrite Hp in Hp0. injection Hp0 as <-.
  unfold update_definition. rewrite Hn. simpl. rewrite get_set_eq. simpl.
  destruct (new_properties_loop_form _ _ _ Hloop) as [Hform Hne];
    [constructor|].
  destruct Hform as [|[n q] new [ref Hq] _]; [by destruct Hne; [left|]|].
  simpl in Hq. subst q. done.
Qed.

Lemma definitions_loop_Raise (e : exception) defs :
  Forall (fun x => (∃ r, update_definition x.1 x.2 = Return r)
                   ∨ update_definition x.1 x.2 = Raise e) defs →
  Exists (fun x => update_definition x.1 x.2 = Raise e) defs →
  definitions_loop defs = Raise e.
Proof.
  induction 1 as [|[n def] defs Hx Hall IH]; intros Hex;
    [by apply Exists_nil in Hex|].
  simpl in Hx. simpl. apply Exists_cons in Hex as [Hex|Hex].
  - simpl in Hex. by rewrite Hex.
  - destruct Hx as [[r Hr]|Hr]; rewrite Hr; simpl; [|done]. by rewrite IH.
Qed.

(** [make_extensions_non_nullable] cannot be applied twice: once it has
    returned on a schema in which some definition named "...Extensions" has
    a property, a second call on the same schema raises [KeyError('anyOf')]
    (the new properties have no "anyOf"). *)
Theorem make_extensions_non_nullable_twice
  (schema schema' defs d properties : list (string * json))
  (name prop_name : string) (prop_def : json) :
  make_extensions_non_nullable schema = Return schema' →
  get "$defs" schema = Some (JDict defs) →
  (name, JDict d) ∈ defs →
  endswith name "Extensions" = true →
  get "properties" d = Some (JDict ((prop_name, prop_def) :: properties)) →
  make_extensions_non_nullable schema' = Raise (KeyError (JStr "anyOf")).
Proof.
  intros H Hd Hin Hn Hp.
  apply make_extensions_non_nullable_Return in H as (defs0 & defs' & Hd0 & Hl & ->).
  rewrite Hd in Hd0. injection Hd0 as <-.
  apply definitions_loop_Return in Hl.
  unfold make_extensions_non_nullable. simpl. rewrite get_set_eq. simpl.
  rewrite (definitions_loop_Raise (KeyError (JStr "anyOf")) defs'); [done| |].
  - clear Hin Hd. induction Hl as [|x y l l' [Hxy Hu] _ IH]; constructor; [|done].
    rewrite Hxy. by eapply update_definition_twice.
  - clear Hd. induction Hl as [|x y l l' [Hxy Hu] Hl IH];
      [by apply elem_of_nil in Hin|].
    apply elem_of_cons in Hin as [<-|Hin]; [|right; by apply IH].
    left. rewrite Hxy. simpl in *. by eapply update_definition_twice_Raise.
Qed.

End extensions.

Example make_extensions_non_nullable_frame_witness :
  let any_of r := schema_tools.JList
                    [schema_tools.JDict [("$ref", schema_tools.JStr r)];
                     schema_tools.JDict [("type", schema_tools.JStr "null")]] in
  let ext := schema_tools.JDict
               [("title", schema_tools.JStr "TrackSectionExtensions");
                ("properties",
                 schema_tools.JDict
                   [("sncf", schema_tools.JDict
                               [("anyOf", any_of "#/$defs/TrackSectionSncfExtension");
                                ("default", schema_tools.JNull)]);
                    ("source", schema_tools.JDict
                                 [("anyOf", any_of "#/$defs/TrackSectionSourceExtension");
                                  ("default", schema_tools.JNull)])])] in
  let schema := [("$defs", schema_tools.JDict
                             [("Detector", schema_tools.JDict
                                             [("title", schema_tools.JStr "Detector")]);
                              ("TrackSectionExtensions", ext)]);
                 ("title", schema_tools.JStr "RailJsonInfra")] in
  ∃ schema' defs',
    schema_tools.make_extensions_non_nullable schema
    = schema_tools.Return schema'
    ∧ schema'.*1 = ["$defs"; "title"]
    ∧ schema_tools.get "$defs" schema' = Some (schema_tools.JDict defs')
    ∧ defs'.*1 = ["Detector"; "TrackSectionExtensions"].
Proof.
  intros any_of ext schema. eexists. 
  destruct (make_extensions_non_nullable_frame schema _ eq_refl)
    as (Hk & _ & defs & defs' & [= <-] & Hd' & Hk' & _).
  exists defs'. split; [reflexivity|]. split; [exact Hk|].
  split; [exact Hd'|exact Hk'].
Defined.

Example make_extensions_non_nullable_properties_witness :
  let any_of r := schema_tools.JList
                    [schema_tools.JDict [("$ref", schema_tools.JStr r)];
                     schema_tools.JDict [("type", schema_tools.JStr "null")]] in
  let properties :=
    [("sncf", schema_tools.JDict [("anyOf", any_of "#/$defs/A");
                                  ("default", schema_tools.JNull)]);
     ("source", schema_tools.JDict [("anyOf", any_of "#/$defs/B");
                                    ("default", schema_tools.JNull)])] in
  let d := [("title", schema_tools.JStr "TrackSectionExtensions");
            ("properties", schema_tools.JDict properties)] in
  let defs := [("TrackSectionExtensions", schema_tools.JDict d)] in
  let schema := [("$defs", schema_tools.JDict defs)] in
  ∃ schema' defs' d' new,
    schema_tools.make_extensions_non_nullable schema
    = schema_tools.Return schema'
    ∧ schema_tools.get "$defs" schema' = Some (schema_tools.JDict defs')
    ∧ schema_tools.get "TrackSectionExtensions" defs'
      = Some (schema_tools.JDict d')
    ∧ schema_tools.get "properties" d' = Some (schema_tools.JDict new)
    ∧ new.*1 = ["sncf"; "source"].
Proof.
  intros any_of properties d defs schema. eexists.
  destruct (make_extensions_non_nullable_properties schema _ defs d properties
              "TrackSectionExtensions" eq_refl eq_refl eq_refl eq_refl eq_refl)
    as (defs' & d' & new & H1 & H2 & H3 & H4 & _).
  { by apply (bool_decide_unpack _). }
  exists defs', d', new. split; [reflexivity|].
  split; [exact H1|]. split; [exact H2|]. split; [exact H3|exact H4].
Defined.

Example make_extensions_non_nullable_twice_witness :
  let any_of r := schema_tools.JList
                    [schema_tools.JDict [("$ref", schema_tools.JStr r)];
                     schema_tools.JDict [("type", schema_tools.JStr "null")]] in
  let properties :=
    [("sncf", schema_tools.JDict [("anyOf", any_of "#/$defs/A");
                                  ("default", schema_tools.JNull)]);
     ("source", schema_tools.JDict [("anyOf", any_of "#/$defs/B");
                                    ("default", schema_tools.JNull)])] in
  let d := [("title", schema_tools.JStr "TrackSectionExtensions");
            ("properties", schema_tools.JDict properties)] in
  let defs := [("TrackSectionExtensions", schema_tools.JDict d)] in
  let schema := [("$defs", schema_tools.JDict defs)] in
  ∃ schema',
    schema_tools.make_extensions_non_nullable schema
    = schema_tools.Return schema'
    ∧ schema_tools.make_extensions_non_nullable schema'
      = schema_tools.Raise
          (schema_tools.KeyError (schema_tools.JStr "anyOf")).
Proof.
  intros any_of properties d defs schema. eexists. split; [reflexivity|].
  apply (make_extensions_non_nullable_twice schema _ defs d
           [("source", schema_tools.JDict [("anyOf", any_of "#/$defs/B");
                                           ("default", schema_tools.JNull)])]
           "TrackSectionExtensions" "sncf"
           (schema_tools.JDict [("anyOf", any_of "#/$defs/A");
                                ("default", schema_tools.JNull)]));
    try reflexivity.
  apply list_elem_of_here.
Defined.

(** ** infra_editor.py: to_translation_schema *)

Section translation_schema.
Import schema_tools.
Variable normalize : string → outcome string.

#[local] Abbreviation translate := (to_translation_schema normalize).
#[local] Abbreviation loop := (translation_loop normalize translate).

Lemma json_nested_ind (P : json → Prop) :
  P JNull → (∀ b, P (JBool b)) → (∀ z, P (JInt z)) → (∀ f, P (JFloat f)) →
  (∀ s, P (JStr s)) →
  (∀ l, Forall P l → P (JList l)) →
  (∀ d, Forall (fun kv => P kv.2) d → P (JDict d)) →
  ∀ v, P v.
Proof.
  intros HN HB HI HF HS HL HD. fix IH 1. intros [|b|z|f|s|l|d].
  - apply HN.
  - apply HB.
  - apply HI.
  - apply HF.
  - apply HS.
  - apply HL. induction l as [|x l IHl]; constructor.
    + apply IH.
    + apply IHl.
  - apply HD. induction d as [|[k x] d IHd]; constructor.
    + apply IH.
    + apply IHd.
Qed.

Lemma translate_dict d :
  translate (JDict d)
  = (new_node ← loop d [];
     match new_node with
     | [] => Return None
     | _ => Return (Some (JDict new_node))
     end).
Proof. done. Qed.

Lemma loop_cons key value node_items new_node :
  loop ((key, value) :: node_items) new_node
  = (added ← step normalize key value;
     loop node_items (match added with
                      | Some x => set key x new_node
                      | None => new_node
                      end)).
Proof.
  unfold step. simpl.
  destruct value as [| | | |text| |[|kv d]]; try done.
  - destruct (String.eqb key "description"); [done|].
    destruct (String.eqb key "title"); [|done].
    by destruct (normalize text).
  - destruct (translate (JDict (kv :: d))) as [[x|]|]; done.
Qed.

Lemma set_Forall_entry (P : string * json → Prop) key v d :
  P (key, v) → Forall P d → Forall P (set key v d).
Proof.
  intros Hv. induction 1 as [|[k x] d Hx Hd IH]; simpl; [by repeat constructor|].
  destruct (String.eqb k key) eqn:E; constructor; try done.
  by apply String.eqb_eq in E as ->.
Qed.

#[local] Abbreviation translated :=
  (fun kv : string * json =>
     (∃ text, kv.2 = JStr text ∧ (kv.1 = "description" ∨ kv.1 = "title"))
     ∨ is_translation kv.2).

Lemma step_form key value x :
  (∀ r, translate value = Return (Some r) → is_translation r) →
  step normalize key value = Return (Some x) →
  translated (key, x).
Proof.
  intros IH. unfold step. destruct value as [| | | |text| |[|kv d]]; try done.
  - destruct (String.eqb key "description") eqn:E1.
    { apply String.eqb_eq in E1 as ->. intros [= <-]. left. eauto. }
    destruct (String.eqb key "title") eqn:E2; [|done].
    apply String.eqb_eq in E2 as ->.
    destruct (normalize text) as [t|]; [|done]. intros [= <-]. left. eauto.
  - intros H. right. by apply IH.
Qed.

Lemma loop_form node_items new_node out :
  Forall (fun kv => ∀ r, translate kv.2 = Return (Some r) → is_translation r)
    node_items →
  loop node_items new_node = Return out →
  Forall translated new_node →
  Forall translated out ∧ (new_node ≠ [] → out ≠ []).
Proof.
  intros Hall. revert new_node.
  induction Hall as [|[key value] items Hv Hall IH]; intros new_node.
  - by intros [= <-].
  - rewrite loop_cons.
    destruct (step normalize key value) as [[x|]|] eqn:Es; [| |done]; simpl.
    + intros Hl Hacc. destruct (IH _ Hl) as [Hout Hne].
      { apply set_Forall_entry; [|done]. by eapply step_form. }
      split; [done|]. intros _. apply Hne, set_not_nil.
    + intros Hl Hacc. by apply IH.
Qed.

(** [to_translation_schema] returns [None] or a node of a translation
    schema: a dict that is not empty, in which every value is a string under
    "description" or "title", or again such a node.  It never returns an
    empty dict, a list, a number or a boolean, at any depth. *)
Theorem to_translation_schema_form (json_node : json) (r : option json) :
  translate json_node = Return r →
  match r with
  | Some out => is_translation out
  | None => True
  end.
Proof.
  destruct r as [out|]; [|done]. revert out.
  induction json_node as [| | | | | |d IH] using json_nested_ind; try done.
  intros out. rewrite translate_dict.
  destruct (loop d []) as [new_node|] eqn:El; [|done]. simpl.
  destruct (loop_form _ _ _ IH El) as [Hform _]; [constructor|].
  destruct new_node as [|kv new_node]; [done|]. intros [= <-].
  by constructor.
Qed.

(** The loop over items of distinct keys: the entries it adds come after the
    given ones, in the order of the items they come from. *)
Lemma loop_Return node_items new_node out :
  loop node_items new_node = Return out →
  NoDup (new_node.*1 ++ node_items.*1) →
  ∃ added,
    out = new_node ++ added
    ∧ added.*1 `sublist_of` node_items.*1
    ∧ ∀ key,
        match get key node_items with
        | Some value => step normalize key value = Return (get key added)
        | None => get key added = None
        end.
Proof.
  revert new_node. induction node_items as [|[k v] items IH]; intros acc.
  - intros [= <-] _. exists []. by rewrite app_nil_r.
  - rewrite loop_cons, fmap_cons. simpl. intros Hl Hnd.
    assert (Hk : (k ∉ acc.*1) ∧ (k ∉ items.*1) ∧ NoDup (acc.*1 ++ items.*1)).
    { apply NoDup_app in Hnd as (Ha & Hd & Hi).
      apply NoDup_cons in Hi as [Hki Hi]. split; [|split; [done|]].
      - intros Hin. apply (Hd k Hin). left.
      - apply NoDup_app. split; [done|]. split; [|done].
        intros x Hx Hx'. apply (Hd x Hx). by right. }
    destruct Hk as (Hka & Hki & Hnd').
    destruct (step normalize k v) as [[x|]|] eqn:Es; [| |done]; simpl in Hl.
    + rewrite set_new in Hl by done.
      destruct (IH _ Hl) as (added & -> & Hsub & Hget).
      { by rewrite fmap_app, <- (assoc_L (++)). }
      exists ((k, x) :: added). rewrite <- (assoc_L (++)). split; [done|].
      split; [rewrite fmap_cons; by constructor|].
      intros key. simpl. destruct (String.eqb k key) eqn:E.
      * by apply String.eqb_eq in E as <-.
      * apply Hget.
    + destruct (IH _ Hl Hnd') as (added & -> & Hsub & Hget).
      exists added. split; [done|]. split; [by constructor|].
      intros key. simpl. destruct (String.eqb k key) eqn:E; [|apply Hget].
      apply String.eqb_eq in E as <-. rewrite Es. f_equal. symmetry.
      apply get_None. intros Hin. apply Hki.
      by eapply elem_of_sublist.
Qed.

(** The keys of the result of [to_translation_schema] on a dict are keys of
    the dict, in the same order, and the value of a key is decided by the
    value the dict has for it: a string under "description" is kept as it is;
    a string under "title" is replaced by its normalisation; a dict that is
    not empty is replaced by its translation, or dropped if that is [None];
    anything else (a list, a number, a boolean, [None], an empty dict, a
    string under another key) is dropped. *)
Theorem to_translation_schema_entries (d : list (string * json))
  (r : option json) :
  NoDup d.*1 →
  translate (JDict d) = Return r →
  ∃ out,
    r = match out with [] => None | _ => Some (JDict out) end
    ∧ out.*1 `sublist_of` d.*1
    ∧ ∀ key,
        match get key d with
        | Some (JStr text) =>
            if String.eqb key "description" then get key out = Some (JStr text)
            else if String.eqb key "title" then
              ∃ title, normalize text = Return title
                       ∧ get key out = Some (JStr title)
            else get key out = None
        | Some (JDict (kv :: d')) =>
            translate (JDict (kv :: d')) = Return (get key out)
        | _ => get key out = None
        end.
Proof.
  intros Hnd. rewrite translate_dict.
  destruct (loop d []) as [out|] eqn:El; [|done]. simpl. intros Hr.
  destruct (loop_Return _ _ _ El Hnd) as (added & -> & Hsub & Hget).
  simpl in *. exists added. split; [by destruct added; injection Hr|].
  split; [done|]. intros key. specialize (Hget key).
  destruct (get key d) as [[| | | |text| |[|kv d']]|]; unfold step in Hget;
    try (by injection Hget as <-); try done.
  destruct (String.eqb key "description"); [by injection Hget as <-|].
  destruct (String.eqb key "title"); [|by injection Hget as <-].
  destruct (normalize text) as [title|]; [|done]. simpl in Hget.
  injection Hget as <-. by exists title.
Qed.

(** *** Titles *)

Lemma titles_cons key value (d : list (string * json)) :
  titles (JDict ((key, value) :: d))
  = match value with
    | JStr text =>
        if String.eqb key "description" then []
        else if String.eqb key "title" then [text]
        else []
    | JDict (_ :: _) => titles value
    | _ => []
    end ++ titles (JDict d).
Proof. done. Qed.

(** A loop that returns has come through each of its iterations. *)
Lemma loop_Return_steps node_items new_node out :
  loop node_items new_node = Return out →
  Forall (fun kv => ∃ added, step normalize kv.1 kv.2 = Return added)
    node_items.
Proof.
  revert new_node. induction node_items as [|[k v] items IH]; intros acc;
    [done|].
  rewrite loop_cons.
  destruct (step normalize k v) as [added|] eqn:E; [|done]. simpl.
  intros Hl. constructor; [by exists added|by eapply IH].
Qed.

(** When the call returns, the normalisation has returned on every title
    that the call met. *)
Lemma translate_Return_titles (v : json) (r : option json) :
  translate v = Return r →
  Forall (fun text => ∃ title, normalize text = Return title) (titles v).
Proof.
  revert r. induction v as [| | | | | |d IH] using json_nested_ind; try done.
  intros r. rewrite translate_dict.
  destruct (loop d []) as [out|] eqn:El; [|done]. intros _.
  apply loop_Return_steps in El.
  induction d as [|[k v] d IHd]; [by constructor|].
  apply Forall_cons in IH as [IHv IHrest].
  apply Forall_cons in El as [[added Hstep] Hrest].
  rewrite titles_cons. apply Forall_app. split; [|by apply IHd].
  simpl in Hstep, IHv. unfold step in Hstep.
  destruct v as [| | | |text| |[|kv d']]; try by constructor.
  - destruct (String.eqb k "description"); [by constructor|].
    destruct (String.eqb k "title"); [|by constructor].
    destruct (normalize text) as [title|] eqn:E; [|done].
    constructor; [by exists title|by constructor].
  - by apply (IHv added).
Qed.

End translation_schema.

(** ** infra_editor.py: normalize_title_case *)

Section title_case.
Import schema_tools.

Lemma chars_append (a b : string) : chars (a +:+ b) = chars a ++ chars b.
Proof.
  unfold chars. induction a as [|c a IH]; [done|].
  rewrite append_cons. simpl. by rewrite IH.
Qed.

Lemma chars_inj (a b : string) : chars a = chars b → a = b.
Proof.
  unfold chars. intros H.
  rewrite <- (String.string_of_list_ascii_of_string a),
          <- (String.string_of_list_ascii_of_string b).
  by rewrite H.
Qed.

Lemma visible_cons (c : Ascii.ascii) (s : string) :
  visible (String c s) = if is_space c then visible s else c :: visible s.
Proof.
  unfold visible, chars. simpl. rewrite filter_cons.
  destruct (is_space c); by case_decide.
Qed.

Lemma visible_append (a b : string) : visible (a +:+ b) = visible a ++ visible b.
Proof. unfold visible. by rewrite chars_append, filter_app. Qed.

Lemma blank_visible (s : string) : blank s = true ↔ visible s = [].
Proof.
  induction s as [|c s IH]; [done|]. rewrite visible_cons.
  unfold blank, chars in *. simpl. destruct (is_space c); simpl; [done|].
  split; done.
Qed.

Lemma lower_lower (c : Ascii.ascii) : lower (lower c) = lower c.
Proof. by destruct c as [[] [] [] [] [] [] [] []]. Qed.

Lemma is_space_lower (c : Ascii.ascii) : is_space (lower c) = is_space c.
Proof. by destruct c as [[] [] [] [] [] [] [] []]. Qed.

(** The substitution only inserts spaces. *)
Lemma visible_insert_spaces (prev : option Ascii.ascii) (s : string) :
  visible (insert_spaces prev s) = visible s.
Proof.
  revert prev. induction s as [|c s IH]; intros prev; [done|].
  simpl. destruct (match prev with Some _ => _ | None => _ end).
  - rewrite (visible_cons Ascii.Space). simpl. by rewrite !visible_cons, IH.
  - by rewrite !visible_cons, IH.
Qed.

(** [split]: the words are words, and together they are the characters read
    so far followed by the visible characters of the rest. *)
Lemma split_words (s word : string) :
  visible word = chars word →
  Forall is_word (split s word)
  ∧ flat_map chars (split s word) = chars word ++ visible s.
Proof.
  revert word. induction s as [|c s IH]; intros word Hw.
  - simpl. destruct word as [|c w]; [done|]. split.
    + by repeat constructor.
    + simpl. by rewrite !app_nil_r.
  - simpl. rewrite visible_cons. destruct (is_space c) eqn:Ec.
    + destruct (IH EmptyString eq_refl) as [Hf Hc].
      destruct word as [|c' w]; [done|]. split.
      * constructor; [done|done].
      * simpl. by rewrite Hc.
    + destruct (IH (word +:+ String c EmptyString)) as [Hf Hc].
      { rewrite visible_append, chars_append, Hw. f_equal.
        rewrite visible_cons, Ec. done. }
      split; [done|]. rewrite Hc, chars_append. simpl.
      by rewrite <- (assoc_L (++)).
Qed.

Lemma join_cons (w : string) (words : list string) :
  join (w :: words)
  = match words with
    | [] => w
    | _ => w +:+ " " +:+ join words
    end.
Proof. by destruct words. Qed.

Lemma visible_join (words : list string) :
  Forall is_word words → visible (join words) = flat_map chars words.
Proof.
  induction 1 as [|w words [_ Hw] Hws IH]; [done|].
  rewrite join_cons. simpl. destruct words as [|w' words].
  - by rewrite app_nil_r.
  - rewrite !visible_append, IH, Hw. done.
Qed.

Lemma lower_initial_word (w : string) :
  is_word w →
  is_word (lower_initial w)
  ∧ lower <$> chars (lower_initial w) = lower <$> chars w.
Proof.
  intros [Hne Hv]. unfold lower_initial.
  destruct w as [|c [|c' w]]; [done|done|].
  destruct (is_lower c'); [|done]. split; [split; [done|]|].
  - rewrite visible_cons in *. rewrite is_space_lower.
    destruct (is_space c) eqn:Ec.
    + exfalso. assert (Hlen : length (visible (String c' w))
                              = length (chars (String c (String c' w))))
        by (by rewrite Hv).
      unfold visible in Hlen. pose proof (length_filter
        (fun c0 => is_space c0 = false) (chars (String c' w))) as Hle.
      unfold chars in *. simpl in *. lia.
    + unfold chars in *. simpl in *. by injection Hv as ->.
  - unfold chars. simpl. by rewrite lower_lower.
Qed.

Lemma lower_initial_words (words : list string) :
  Forall is_word words →
  Forall is_word (lower_initial <$> words)
  ∧ lower <$> flat_map chars (lower_initial <$> words)
    = lower <$> flat_map chars words.
Proof.
  induction 1 as [|w words Hw Hws [IH1 IH2]]; [done|].
  destruct (lower_initial_word w Hw) as [Hw1 Hw2]. split.
  - rewrite fmap_cons. by constructor.
  - rewrite fmap_cons. simpl. by rewrite !fmap_app, Hw2, IH2.
Qed.

(** A title with no visible character has no word. *)
Lemma normalize_title_case_blank (title : string) :
  blank title = true → normalize_title_case title = Raise IndexError.
Proof.
  intros Hb. unfold normalize_title_case.
  destruct (split_words (insert_spaces None title) EmptyString eq_refl)
    as [Hf Hc].
  rewrite visible_insert_spaces in Hc. simpl in Hc.
  apply blank_visible in Hb. rewrite Hb in Hc.
  destruct (split (insert_spaces None title) EmptyString) as [|first others];
    [done|].
  apply Forall_cons in Hf as [[Hne _] _]. simpl in Hc.
  apply app_eq_nil in Hc as [Hc _]. destruct Hne. by apply chars_inj.
Qed.

(** On a title of ASCII characters, [normalize_title_case] raises, and then
    [IndexError], exactly when the title has no visible character (the empty
    title, white space only).  Otherwise it returns a title made of words
    separated by single spaces, with no white space before the first or after
    the last, whose visible characters are those of the given title, in
    order, up to the case of letters. *)
Theorem normalize_title_case_words (title : string) :
  ascii_only title →
  if blank title then normalize_title_case title = Raise IndexError
  else
    ∃ words,
      normalize_title_case title = Return (join words)
      ∧ words ≠ [] ∧ Forall is_word words
      ∧ lower <$> visible (join words) = lower <$> visible title.
Proof.
  intros _. destruct (blank title) eqn:Hb.
  { by apply normalize_title_case_blank. }
  unfold normalize_title_case.
  destruct (split_words (insert_spaces None title) EmptyString eq_refl)
    as [Hf Hc].
  rewrite visible_insert_spaces in Hc. simpl in Hc.
  destruct (split (insert_spaces None title) EmptyString) as [|first others].
  - simpl in Hc. symmetry in Hc. apply blank_visible in Hc. congruence.
  - apply Forall_cons in Hf as [Hfirst Hothers].
    destruct (lower_initial_words _ Hothers) as [Ho1 Ho2].
    exists (first :: (lower_initial <$> others)). split; [done|].
    split; [done|]. split; [by constructor|].
    rewrite visible_join by (by constructor).
    rewrite <- Hc. simpl. by rewrite !fmap_app, Ho2.
Qed.

(** With [normalize_title_case], when [to_translation_schema] returns on a
    dict, every title that it met, in the dict or in the dicts nested in it,
    at any depth, has a visible character: a call on a dict that holds, at
    any depth that the call visits, a "title" that is empty or made of white
    space does not return. *)
Theorem to_translation_schema_titles_visible (d : list (string * json))
  (r : option json) :
  to_translation_schema normalize_title_case (JDict d) = Return r →
  Forall (fun title => blank title = false) (titles (JDict d)).
Proof.
  intros Hr.
  apply (translate_Return_titles normalize_title_case) in Hr.
  eapply Forall_impl; [exact Hr|]. intros text [title Ht]. simpl in Ht.
  destruct (blank text) eqn:Hb; [|done].
  by rewrite (normalize_title_case_blank text Hb) in Ht.
Qed.

End title_case.

Example normalize_title_case_examples :
  schema_tools.normalize_title_case "TrackSection"
  = schema_tools.Return "Track section"
  ∧ schema_tools.normalize_title_case "UICCode"
    = schema_tools.Return "UIC code"
  ∧ schema_tools.normalize_title_case "OperationalPointPartExtensions"
    = schema_tools.Return "Operational point part extensions"
  ∧ schema_tools.normalize_title_case "Speed  limit by Tag"
    = schema_tools.Return "Speed limit by tag"
  ∧ schema_tools.normalize_title_case "x1Yz" = schema_tools.Return "x1 yz"
  ∧ schema_tools.normalize_title_case "X-Ya" = schema_tools.Return "X- ya"
  ∧ schema_tools.normalize_title_case "ABc DEf x"
    = schema_tools.Return "A bc D ef x"
  ∧ schema_tools.normalize_title_case " " = schema_tools.Raise schema_tools.IndexError.
Proof. by repeat split. Qed.

Example normalize_title_case_words_witness :
  ∃ words,
    schema_tools.normalize_title_case "RailJsonInfra"
    = schema_tools.Return (schema_tools.join words)
    ∧ schema_tools.join words = "Rail json infra".
Proof.
  destruct (normalize_title_case_words "RailJsonInfra")
    as (words & Hn & _).
  { unfold schema_tools.ascii_only. by apply (bool_decide_unpack _). }
  exists words. split; [exact Hn|].
  injection Hn as Hn. symmetry. exact Hn.
Defined.

Example to_translation_schema_titles_visible_witness :
  let d :=
    [("title", schema_tools.JStr "RailJsonInfra");
     ("type", schema_tools.JStr "object");
     ("properties",
      schema_tools.JDict
        [("track_sections",
          schema_tools.JDict
            [("title", schema_tools.JStr "TrackSections");
             ("description", schema_tools.JStr " ");
             ("items", schema_tools.JDict [])])])] in
  schema_tools.titles (schema_tools.JDict d) = ["RailJsonInfra"; "TrackSections"]
  ∧ Forall (fun title => schema_tools.blank title = false)
      (schema_tools.titles (schema_tools.JDict d)).
Proof.
  intros d. split; [reflexivity|].
  eapply (to_translation_schema_titles_visible d). reflexivity.
Defined.

Example to_translation_schema_form_witness :
  let node :=
    schema_tools.JDict
      [("title", schema_tools.JStr "RailJsonInfra");
       ("type", schema_tools.JStr "object");
       ("required", schema_tools.JList [schema_tools.JStr "version"]);
       ("properties",
        schema_tools.JDict
          [("version", schema_tools.JDict
                         [("description", schema_tools.JStr "The version");
                          ("maximum", schema_tools.JInt 3)]);
           ("other", schema_tools.JDict [("type", schema_tools.JStr "string")])])] in
  ∃ out,
    schema_tools.to_translation_schema schema_tools.normalize_title_case node
    = schema_tools.Return (Some out)
    ∧ schema_tools.is_translation out.
Proof.
  intros node. eexists. split; [reflexivity|].
  exact (to_translation_schema_form schema_tools.normalize_title_case node
           _ eq_refl).
Defined.

Example to_translation_schema_entries_witness :
  let d := [("title", schema_tools.JStr "TrackSection");
            ("type", schema_tools.JStr "object");
            ("description", schema_tools.JStr "A track section");
            ("properties", schema_tools.JDict
                             [("length", schema_tools.JDict
                                           [("type", schema_tools.JStr "number")])])] in
  ∃ out,
    schema_tools.to_translation_schema schema_tools.normalize_title_case
      (schema_tools.JDict d)
    = schema_tools.Return (Some (schema_tools.JDict out))
    ∧ out.*1 `sublist_of` ["title"; "type"; "description"; "properties"]
    ∧ schema_tools.get "description" out
      = Some (schema_tools.JStr "A track section")
    ∧ schema_tools.get "properties" out = None.
Proof.
  intros d.
  assert (Hnd : NoDup d.*1) by (by apply (bool_decide_unpack _)).
  destruct (to_translation_schema_entries schema_tools.normalize_title_case d
              (Some (schema_tools.JDict
                       [("title", schema_tools.JStr "Track section");
                        ("description", schema_tools.JStr "A track section")]))
              Hnd eq_refl) as (out & Hr & Hsub & Hget).
  exists out. destruct out as [|kv out]; [discriminate Hr|].
  injection Hr as Hr Hout. rewrite <- Hr, <- Hout in *.
  split; [reflexivity|]. split; [exact Hsub|].
  split; [exact (Hget "description")|].
  pose proof (Hget "properties") as Hp. simpl in Hp.
  vm_compute. vm_compute in Hp. congruence.
Defined.

Example discriminator_is_mandatory_witness :
  let idv := fun _ : string => true in
  let d := [("settings", infra_editor.VDict [("Nf", infra_editor.VStr "true")]);
            ("default_parameters",
             infra_editor.VDict [("jaune_cli", infra_editor.VStr "false")])] in
  ∃ out,
    infra_editor.validate idv infra_editor.BalSystem.model (infra_editor.VDict d)
    = Ok out
    ∧ (∃ msg, infra_editor.validate idv infra_editor.LimitedLogicalSignal
                (infra_editor.VDict d) = Err (ValidationError msg))
    ∧ infra_editor.validate idv infra_editor.LimitedLogicalSignal out = Ok out.
Proof.
  intros idv d. eexists. split; [reflexivity|].
  exact (discriminator_is_mandatory idv infra_editor.bal d _ eq_refl eq_refl).
Defined.

Example settings_are_flags_witness :
  let idv := fun _ : string => true in
  let d := [("settings", infra_editor.VDict
                           [("Nf", infra_editor.VStr "true");
                            ("distant", infra_editor.VStr "false")]);
            ("parameters", infra_editor.VDict [])] in
  ∃ settings Nf distant,
    infra_editor.dict_get "settings" d = Some (infra_editor.VDict settings)
    ∧ infra_editor.dict_get "Nf" settings
      = Some (infra_editor.VStr (infra_editor.FlagSignalParameter_value Nf))
    ∧ infra_editor.dict_get "distant" settings
      = Some (infra_editor.VStr (infra_editor.FlagSignalParameter_value distant)).
Proof.
  intros idv d.
  destruct (settings_are_flags idv infra_editor.bapr d _ eq_refl)
    as (settings & Nf & Hs & HNf & Hd & _).
  destruct (Hd eq_refl) as [distant Hdist].
  by exists settings, Nf, distant.
Defined.

Example conditional_parameters_are_kept_witness :
  let idv := fun s : string => negb (String.eqb s "") in
  let cp := infra_editor.VDict
              [("on_route", infra_editor.VStr "rt.a->b");
               ("parameters",
                infra_editor.VDict [("jaune_cli", infra_editor.VStr "true")])] in
  let d := [("signaling_system", infra_editor.VStr "BAL");
            ("settings", infra_editor.VDict [("Nf", infra_editor.VStr "true")]);
            ("default_parameters",
             infra_editor.VDict [("jaune_cli", infra_editor.VStr "false")]);
            ("conditional_parameters", infra_editor.VList [cp; cp])] in
  ∃ d' kept,
    infra_editor.validate idv infra_editor.BalSystem.model (infra_editor.VDict d)
    = Ok (infra_editor.VDict d')
    ∧ infra_editor.dict_get "conditional_parameters" d'
      = Some (infra_editor.VList kept)
    ∧ length kept = 2%nat.
Proof.
  intros idv cp d. eexists.
  destruct (conditional_parameters_are_kept idv infra_editor.bal d _
              (infra_editor.VList [cp; cp]) eq_refl eq_refl)
    as (items & kept & [= <-] & Hk & Hlen & _).
  exists kept. split; [reflexivity|]. split; [exact Hk|exact Hlen].
Defined.

(** ** infra_editor.py: the other fields of a logical signal *)

Section logical_signal_frame.
Import infra_editor.
Variable Identifier_valid : string → bool.

#[local] Abbreviation validate := (infra_editor.validate Identifier_valid).

Lemma validate_kind v x :
  validate SignalingSystem_schema v = Ok x →
  x = v ∧ ∃ k, v = VStr (SignalingSystem_value k).
Proof.
  destruct v as [| | |s| |]; try done. simpl.
  destruct (String.eqb s "BAL") eqn:E1.
  { apply String.eqb_eq in E1 as ->. intros [= <-]. split; [done|]. by exists bal. }
  destruct (String.eqb s "BAPR") eqn:E2.
  { apply String.eqb_eq in E2 as ->. intros [= <-]. split; [done|]. by exists bapr. }
  destruct (String.eqb s "TVM300") eqn:E3.
  { apply String.eqb_eq in E3 as ->. intros [= <-]. split; [done|].
    by exists tvm300. }
  destruct (String.eqb s "TVM430") eqn:E4.
  { apply String.eqb_eq in E4 as ->. intros [= <-]. split; [done|].
    by exists tvm430. }
  destruct (String.eqb s "ETCS_LEVEL2") eqn:E5; [|done].
  apply String.eqb_eq in E5 as ->. intros [= <-]. split; [done|].
  by exists etcsLevel2.
Qed.

Lemma next_signaling_systems_field (k : SignalingSystem) :
  get_field "next_signaling_systems" (model_fields (system_model k))
  = Some (TList SignalingSystem_schema, DefaultFactoryList).
Proof. by destruct k. Qed.

(** The allowed input systems of a valid logical signal: the empty list when
    the input has no "next_signaling_systems"; otherwise the input's value,
    kept as it is, which is a list of names of the five kinds. *)
Theorem next_signaling_systems_are_kinds (k : SignalingSystem)
  (d d' : list (string * value)) :
  validate (system_model k) (VDict d) = Ok (VDict d') →
  match dict_get "next_signaling_systems" d with
  | None => dict_get "next_signaling_systems" d' = Some (VList [])
  | Some v =>
      dict_get "next_signaling_systems" d' = Some v
      ∧ ∃ kinds : list SignalingSystem,
          v = VList ((fun k' => VStr (SignalingSystem_value k')) <$> kinds)
  end.
Proof.
  intros Hv. destruct (validate_system_model _ _ _ _ Hv) as (? & [= <-] & Hf & _).
  destruct (validate_fields_lookup _ _ _ _ _ _ _ Hf
              (next_signaling_systems_field k)) as (x & Hx & Hval).
  destruct (dict_get "next_signaling_systems" d) as [v|].
  - rewrite validate_list in Hval. destruct v as [| | | |items|]; try done.
    destruct (validate_items _ items) as [kept|] eqn:E; [|done].
    injection Hval as <-. apply validate_items_Forall2 in E.
    assert (kept = items
            ∧ ∃ kinds : list SignalingSystem,
                items = (fun k' => VStr (SignalingSystem_value k')) <$> kinds)
      as [-> [kinds ->]].
    { clear Hx. induction E as [|v x items kept Hvx _ [-> [kinds ->]]].
      - split; [done|]. by exists [].
      - apply validate_kind in Hvx as [-> [k' ->]]. split; [done|].
        by exists (k' :: kinds). }
    split; [done|]. by exists kinds.
  - by injection Hval as <-.
Qed.

(** Validation of the fields reads the input through the names of the
    fields only. *)
Lemma validate_fields_ext val d1 d2 fields :
  (∀ name, name ∈ fields.*1 → dict_get name d1 = dict_get name d2) →
  validate_fields val d1 fields = validate_fields val d2 fields.
Proof.
  induction fields as [|[n [ty dflt]] fields IH]; intros H; [done|].
  simpl. rewrite (H n) by (rewrite fmap_cons; left).
  rewrite IH; [done|]. intros name Hin. apply H. rewrite fmap_cons. by right.
Qed.

(** Keys that are not fields are ignored: two input dicts that agree on the
    fields of the model of a kind have the same validation as that model
    (the same result or the same error), whatever other keys they hold. *)
Theorem extra_keys_are_ignored (k : SignalingSystem)
  (d1 d2 : list (string * value)) :
  (∀ name, name ∈ field_names (system_model k) →
           dict_get name d1 = dict_get name d2) →
  validate (system_model k) (VDict d1) = validate (system_model k) (VDict d2).
Proof.
  intros H. rewrite system_model_fields, !validate_model.
  by rewrite (validate_fields_ext _ d1 d2).
Qed.

End logical_signal_frame.

Example next_signaling_systems_are_kinds_witness :
  let idv := fun _ : string => true in
  let d := [("next_signaling_systems",
             infra_editor.VList [infra_editor.VStr "BAPR";
                                 infra_editor.VStr "BAL"]);
            ("settings", infra_editor.VDict [("Nf", infra_editor.VStr "true")]);
            ("default_parameters", infra_editor.VDict [])] in
  ∃ d' kinds,
    infra_editor.validate idv infra_editor.Tvm300System.model
      (infra_editor.VDict d) = Ok (infra_editor.VDict d')
    ∧ kinds = [infra_editor.bapr; infra_editor.bal]
    ∧ infra_editor.dict_get "next_signaling_systems" d'
      = Some (infra_editor.VList
                ((fun k => infra_editor.VStr (infra_editor.SignalingSystem_value k))
                   <$> kinds)).
Proof.
  intros idv d. eexists.
  pose proof (next_signaling_systems_are_kinds idv infra_editor.tvm300 d _
                eq_refl) as [H _].
  exists [infra_editor.bapr; infra_editor.bal].
  split; [reflexivity|]. split; [reflexivity|exact H].
Defined.

Example extra_keys_are_ignored_witness :
  let idv := fun _ : string => true in
  let d := [("settings", infra_editor.VDict [("Nf", infra_editor.VStr "true")]);
            ("default_parameters", infra_editor.VDict [])] in
  infra_editor.validate idv infra_editor.Tvm430System.model
    (infra_editor.VDict (("comment", infra_editor.VInt 7) :: d))
  = infra_editor.validate idv infra_editor.Tvm430System.model
      (infra_editor.VDict d).
Proof.
  intros idv d.
  apply (extra_keys_are_ignored idv infra_editor.tvm430).
  intros name Hin. unfold infra_editor.field_names in Hin. simpl in Hin.
  repeat (apply elem_of_cons in Hin as [->|Hin]; [reflexivity|]).
  by apply elem_of_nil in Hin.
Defined.
